(** * md5hash: a concurrent bulk file hasher

    A shallow embedding of [src/md5hash.cpp].  The sequential parts
    (option parsing, file discovery, the digest wrapper, hex rendering)
    are functions; the worker pool and the collector of [main] are a
    labelled transition system whose atomic steps are the critical
    sections the source takes under [mtx].

    What the embedding takes for granted: the file system does not change
    while the program runs; [unsigned long] and [std::size_t] have 64 bits;
    memory and threads are never refused by the system.  A pool size that
    [std::vector] itself refuses ([pool.reserve], line 175) is part of the
    model: [main] does not return then.

    The module [Collatz] is a shallow embedding of [src/collatz.c], a
    sequential program whose child process prints the Collatz sequence of
    its argument. *)

From Stdlib Require Import NArith ZArith List Ascii String Lia Permutation.
From Stdlib Require Import DecimalString.
From Stdlib.Strings Require Import Byte.
From stdpp Require Import base list strings sorting.

Local Open Scope N_scope.

(** ** Characters and text *)

Definition TAB : string := String (ascii_of_N 9) EmptyString.
Definition NL : string := String (ascii_of_N 10) EmptyString.

(** ** [std::stoul] (base 10, [unsigned long] of an LP64 target) *)

Module Stoul.

Definition ULONG_MAX : N := 2 ^ 64 - 1.

(** [isspace] of the C locale: space, and the controls 9 to 13. *)
Definition isspace (c : ascii) : bool :=
  let n := N_of_ascii c in (n =? 32) || ((9 <=? n) && (n <=? 13)).

Definition digit_value (c : ascii) : option N :=
  let n := N_of_ascii c in
  if (48 <=? n) && (n <=? 57) then Some (n - 48) else None.

Fixpoint skip_spaces (s : string) : string :=
  match s with
  | String c s' => if isspace c then skip_spaces s' else s
  | EmptyString => EmptyString
  end.

(** The longest run of decimal digits at the front of [s], as a number;
    [None] when [s] does not start with a digit ([any] records whether a
    digit has been consumed). *)
Fixpoint digits (s : string) (acc : N) (any : bool) : option N :=
  match s with
  | String c s' =>
      match digit_value c with
      | Some d => digits s' (acc * 10 + d) true
      | None => if any then Some acc else None
      end
  | EmptyString => if any then Some acc else None
  end.

Inductive result :=
| Converted (n : N)
| invalid_argument
| out_of_range.

Definition strip_sign (s : string) : bool * string :=
  match s with
  | String c r =>
      if Ascii.eqb c "-"%char then (true, r)
      else if Ascii.eqb c "+"%char then (false, r)
      else (false, s)
  | EmptyString => (false, s)
  end.

(** Leading white space is skipped, one sign is accepted, the digits that
    follow are converted and whatever comes after them is ignored (the
    source passes no [pos]).  A minus sign negates in [unsigned long]. *)
Definition stoul (str : string) : result :=
  let '(neg, s) := strip_sign (skip_spaces str) in
  match digits s 0 false with
  | None => invalid_argument
  | Some v =>
      if ULONG_MAX <? v then out_of_range
      else Converted (if neg then (2 ^ 64 - v) mod 2 ^ 64 else v)
  end.

End Stoul.

(** ** Option parsing of [main] (lines 90-120) *)

Inductive parsed :=
| Parsed (threads : N) (inputs : list string)
| Fatal (msg : string).

(** The loop over [rawArgs]; [threads] and [inputs] are the two locals it
    updates.  An option and its value are consumed together ([++i]). *)
Fixpoint parse_loop (rawArgs : list string) (threads : N) (inputs : list string)
  : parsed :=
  match rawArgs with
  | [] => Parsed threads inputs
  | a :: rest =>
      if String.eqb a "--threads" then
        match rest with
        | [] => Fatal "Error: --threads requires a number"
        | v :: rest' =>
            match Stoul.stoul v with
            | Stoul.Converted n => parse_loop rest' (N.max 8 n) inputs
            | _ => Fatal "Error: invalid --threads value"
            end
        end
      else parse_loop rest threads (inputs ++ [a])
  end.

Definition parse_args (rawArgs : list string) : parsed := parse_loop rawArgs 8 [].

(** ** The digest wrapper [md5_file_hex] (lines 29-54) *)

(** OpenSSL's streaming interface, an opaque primitive here: the context
    after [MD5_Init], [MD5_Update] with a chunk of bytes, and the bytes
    [MD5_Final] stores in the caller's array. *)
Class MD5_API := {
  MD5_CTX : Type;
  MD5_Init : MD5_CTX;
  MD5_Update : MD5_CTX -> list byte -> MD5_CTX;
  MD5_Final : MD5_CTX -> list byte
}.

(** [MD5_DIGEST_LENGTH] of [openssl/md5.h]. *)
Definition MD5_DIGEST_LENGTH : nat := 16.

(** ** MD5 as RFC 1321 defines it, the instance used to run the model *)

Module RFC1321.

Definition w32 (x : N) : N := x mod 2 ^ 32.

Definition rotl (x c : N) : N :=
  w32 (N.lor (N.shiftl x c) (N.shiftr x (32 - c))).

Definition not32 (x : N) : N := 2 ^ 32 - 1 - x.

Definition S_table : list N :=
  [7; 12; 17; 22; 7; 12; 17; 22; 7; 12; 17; 22; 7; 12; 17; 22;
   5; 9; 14; 20; 5; 9; 14; 20; 5; 9; 14; 20; 5; 9; 14; 20;
   4; 11; 16; 23; 4; 11; 16; 23; 4; 11; 16; 23; 4; 11; 16; 23;
   6; 10; 15; 21; 6; 10; 15; 21; 6; 10; 15; 21; 6; 10; 15; 21].

Definition K_table : list N :=
  [3614090360; 3905402710; 606105819; 3250441966;
   4118548399; 1200080426; 2821735955; 4249261313;
   1770035416; 2336552879; 4294925233; 2304563134;
   1804603682; 4254626195; 2792965006; 1236535329;
   4129170786; 3225465664; 643717713; 3921069994;
   3593408605; 38016083; 3634488961; 3889429448;
   568446438; 3275163606; 4107603335; 1163531501;
   2850285829; 4243563512; 1735328473; 2368359562;
   4294588738; 2272392833; 1839030562; 4259657740;
   2763975236; 1272893353; 4139469664; 3200236656;
   681279174; 3936430074; 3572445317; 76029189;
   3654602809; 3873151461; 530742520; 3299628645;
   4096336452; 1126891415; 2878612391; 4237533241;
   1700485571; 2399980690; 4293915773; 2240044497;
   1873313359; 4264355552; 2734768916; 1309151649;
   4149444226; 3174756917; 718787259; 3951481745].

(** Little-endian words of a block and bytes of a word. *)
Fixpoint words (bs : list byte) (fuel : nat) : list N :=
  match fuel with
  | O => []
  | S fuel' =>
      match bs with
      | b0 :: b1 :: b2 :: b3 :: rest =>
          (Byte.to_N b0 + 2 ^ 8 * Byte.to_N b1 + 2 ^ 16 * Byte.to_N b2
           + 2 ^ 24 * Byte.to_N b3) :: words rest fuel'
      | _ => []
      end
  end.

Definition byte_of (n : N) : byte :=
  match Byte.of_N (n mod 256) with Some b => b | None => x00 end.

Definition le_bytes (k : nat) (x : N) : list byte :=
  map (fun i => byte_of (N.shiftr x (8 * N.of_nat i))) (seq 0 k).

Definition round (M : list N) (i : nat) (st : N * N * N * N) : N * N * N * N :=
  let '(A, B, C, D) := st in
  let '(F, g) :=
    if (i <? 16)%nat then (N.lor (N.land B C) (N.land (not32 B) D), i)
    else if (i <? 32)%nat then
      (N.lor (N.land D B) (N.land (not32 D) C), ((5 * i + 1) mod 16)%nat)
    else if (i <? 48)%nat then (N.lxor B (N.lxor C D), ((3 * i + 5) mod 16)%nat)
    else (N.lxor C (N.lor B (not32 D)), ((7 * i) mod 16)%nat) in
  let F' := w32 (F + A + nth i K_table 0 + nth g M 0) in
  (D, w32 (B + rotl F' (nth i S_table 0)), B, C).

Definition block (st : N * N * N * N) (bs : list byte) : N * N * N * N :=
  let M := words bs 16 in
  let '(A, B, C, D) := fold_left (fun acc i => round M i acc) (seq 0 64) st in
  let '(a0, b0, c0, d0) := st in
  (w32 (a0 + A), w32 (b0 + B), w32 (c0 + C), w32 (d0 + D)).

Fixpoint blocks (fuel : nat) (st : N * N * N * N) (bs : list byte)
  : N * N * N * N :=
  match fuel with
  | O => st
  | S fuel' =>
      match bs with
      | [] => st
      | _ => blocks fuel' (block st (take 64 bs)) (drop 64 bs)
      end
  end.

Definition pad (msg : list byte) : list byte :=
  let len := length msg in
  let zeros := ((64 + 55 - len mod 64) mod 64)%nat in
  msg ++ [x80] ++ replicate zeros x00 ++ le_bytes 8 (8 * N.of_nat len).

Definition md5 (msg : list byte) : list byte :=
  let p := pad msg in
  let '(a, b, c, d) :=
    blocks (length p) (1732584193, 4023233417, 2562383102, 271733878) p in
  le_bytes 4 a ++ le_bytes 4 b ++ le_bytes 4 c ++ le_bytes 4 d.

End RFC1321.

(** The context holds the bytes fed so far; [MD5_Final] digests them. *)
#[global] Instance rfc1321 : MD5_API := {|
  MD5_CTX := list byte;
  MD5_Init := [];
  MD5_Update := fun ctx chunk => ctx ++ chunk;
  MD5_Final := RFC1321.md5
|}.

(** [1 << 20] *)
Definition BUF_SZ : N := N.shiftl 1 20.

(** What [std::ifstream] shows of an opened file: the bytes the device
    delivers, and whether what follows them is the end of the file or an
    I/O error. *)
Record file_view := {
  delivered : list byte;
  io_error : bool
}.

(** The stream [in]: [good] is its conversion to [bool] (no [failbit], no
    [badbit]); [pending] are the bytes not yet read. *)
Record ifstream := {
  good : bool;
  pending : list byte;
  faulty : bool
}.

Definition ifstream_open (v : file_view) : ifstream :=
  {| good := true; pending := delivered v; faulty := io_error v |}.

(** [in.read(buf, n)] followed by [in.gcount()]: the bytes stored and the
    stream afterwards.  A full chunk leaves the stream good.  At the end of
    the file the bytes that remain are stored and [eofbit | failbit] is set.
    When the device fails inside the chunk the exception of the stream
    buffer is swallowed by [read], which sets [badbit] and leaves the count
    at 0 (the default exception mask of the stream is empty). *)
Definition read (n : N) (s : ifstream) : list byte * ifstream :=
  if n <=? N.of_nat (length (pending s)) then
    (take (N.to_nat n) (pending s),
     {| good := true; pending := drop (N.to_nat n) (pending s); faulty := faulty s |})
  else if faulty s then
    ([], {| good := false; pending := []; faulty := true |})
  else
    (pending s, {| good := false; pending := []; faulty := false |}).

(** [while (in) { in.read(...); got = in.gcount(); if (got > 0) MD5_Update(...); }]
    unrolled at most [fuel] times. *)
Fixpoint read_loop `{MD5_API} (fuel : nat) (s : ifstream) (ctx : MD5_CTX)
  : ifstream * MD5_CTX :=
  match fuel with
  | O => (s, ctx)
  | S fuel' =>
      if good s then
        let '(got, s') := read BUF_SZ s in
        read_loop fuel' s'
          (if (0 <? N.of_nat (length got)) then MD5_Update ctx got else ctx)
      else (s, ctx)
  end.

(** *** Hex rendering (lines 48-53) *)

(** One digit under [std::hex] and [std::uppercase]. *)
Definition hex_digit (d : N) : ascii :=
  if d <? 10 then ascii_of_N (48 + d) else ascii_of_N (55 + d).

Fixpoint hex_of (fuel : nat) (n : N) (acc : string) : string :=
  match fuel with
  | O => acc
  | S fuel' =>
      let acc' := String (hex_digit (n mod 16)) acc in
      if n / 16 =? 0 then acc' else hex_of fuel' (n / 16) acc'
  end.

(** [operator<<] of a non-negative [int] in base 16: most significant digit
    first, at least one digit. *)
Definition put_hex (n : N) : string :=
  hex_of (S (N.to_nat (N.log2 n))) n EmptyString.

Fixpoint fill_string (k : nat) (c : ascii) : string :=
  match k with
  | O => EmptyString
  | S k' => String c (fill_string k' c)
  end.

(** [std::setw(w)] with [std::setfill(c)], right adjusted (the default). *)
Definition setw_fill (w : nat) (c : ascii) (s : string) : string :=
  fill_string (w - String.length s) c +:+ s.

(** The [for] loop over [digest[0 .. MD5_DIGEST_LENGTH)]; [digest] is an
    array of [unsigned char], each element cast to [int]. *)
Definition render_hex (digest : list byte) : string :=
  String.concat EmptyString
    (map (fun i => setw_fill 2 "0"%char (put_hex (Byte.to_N (nth i digest x00))))
         (seq 0 MD5_DIGEST_LENGTH)).

(** A call either returns or throws a [std::exception] with a message. *)
Inductive call (A : Type) :=
| returns (a : A)
| throws (what : string).
Arguments returns {A} a.
Arguments throws {A} what.

Definition md5_stream `{MD5_API} (v : file_view) : string :=
  let '(_, ctx) :=
    read_loop (S (length (delivered v))) (ifstream_open v) MD5_Init in
  render_hex (MD5_Final ctx).

(** ** The file system *)

(** [fs::file_type] *)
Inductive file_type :=
| ft_none | ft_not_found | ft_regular | ft_directory | ft_symlink
| ft_block | ft_character | ft_fifo | ft_socket | ft_unknown.

(** One construction or increment of a [recursive_directory_iterator]:
    it stands on an entry, or it failed, which sets [ec] and leaves the
    iterator equal to [end]. *)
Inductive dir_event :=
| dir_entry (p : string)
| dir_failed.

(** The file system as the program observes it: [status] is what
    [fs::status(p, ec)] reports ([ft_none] on an error), [traverse] what
    iterating a directory yields (directories that may not be opened are
    left out, as [skip_permission_denied] asks), [open_file] what
    [std::ifstream in(p, std::ios::binary)] gives at hashing time. *)
Record filesystem := {
  status : string -> file_type;
  traverse : string -> list dir_event;
  open_file : string -> option file_view
}.

Definition md5_file_hex `{MD5_API} (fs : filesystem) (p : string) : call string :=
  match open_file fs p with
  | None => throws "cannot open file"
  | Some v => returns (md5_stream v)
  end.

(** [fs::exists(p, ec)], [fs::is_regular_file(p, ec)] and
    [fs::is_directory(p, ec)]; an error reads as [false]. *)
Definition exists_ (fs : filesystem) (p : string) : bool :=
  match status fs p with
  | ft_none | ft_not_found => false
  | _ => true
  end.

Definition is_regular_file (fs : filesystem) (p : string) : bool :=
  match status fs p with
  | ft_regular => true
  | _ => false
  end.

Definition is_directory (fs : filesystem) (p : string) : bool :=
  match status fs p with
  | ft_directory => true
  | _ => false
  end.

(** ** File discovery: [collect_files_from_arg] (lines 56-82) *)

(** The [for] loop over the iterator.  A failed step leaves the iterator at
    [end], so the loop is left with [ec] set; nothing is written to
    [std::cerr] on that path (nor by the guard [if (ec) { ec.clear();
    continue; }] inside the body). *)
Fixpoint traverse_loop (fs : filesystem) (it : list dir_event) (out : list string)
  : list string :=
  match it with
  | [] => out
  | dir_failed :: _ => out
  | dir_entry p :: it' =>
      traverse_loop fs it' (if is_regular_file fs p then out ++ [p] else out)
  end.

(** The result is the vector [out] after the call and the text the call
    wrote to [std::cerr]. *)
Definition collect_files_from_arg (fs : filesystem) (arg : string) (out : list string)
  : list string * list string :=
  if negb (exists_ fs arg) then
    (out, ["Warning: path not found: " +:+ arg +:+ NL])
  else if is_regular_file fs arg then
    (out ++ [arg], [])
  else if is_directory fs arg then
    (traverse_loop fs (traverse fs arg) out, [])
  else
    (out, ["Warning: skipping non-regular path: " +:+ arg +:+ NL]).

(** [for (const auto& p : inputs) collect_files_from_arg(p, files);] *)
Fixpoint collect_all (fs : filesystem) (inputs : list string)
  (files : list string) (cerr : list string) : list string * list string :=
  match inputs with
  | [] => (files, cerr)
  | p :: rest =>
      let '(files', w) := collect_files_from_arg fs p files in
      collect_all fs rest files' (cerr ++ w)
  end.

(** ** Sorting the file list (lines 132-133) *)

(** The comparator of the source is [a.string() < b.string()], the
    lexicographic order on bytes.  [path_le a b] says that [b] does not
    come before [a]: the relation a sorted range satisfies. *)
Definition path_lt (a b : string) : bool := String.ltb a b.

Definition path_le (a b : string) : Prop := path_lt b a = false.

#[global] Instance path_le_dec (a b : string) : Decision (path_le a b).
Proof. unfold path_le. apply _. Defined.

(** [std::sort]: the standard fixes the result, not the algorithm.  For
    this comparator the sorted arrangement of a list is unique
    ([sort_files_unique] below), so any sorting function is a model. *)
Definition sort_files (files : list string) : list string :=
  merge_sort path_le files.

(** ** Tasks, results and the shared state (lines 18-27, 135-143) *)

Record Task := {
  index : nat;
  path : string
}.

Record Result := {
  ok : bool;
  md5hex : string;
  err : string
}.

(** The body of the worker between its two critical sections
    (lines 156-163): a default constructed [Result], [ok] set before the
    call, the [catch] clause on a [std::exception]. *)
Definition hash_task `{MD5_API} (fs : filesystem) (t : Task) : Result :=
  match md5_file_hex fs (path t) with
  | returns h => {| ok := true; md5hex := h; err := EmptyString |}
  | throws what => {| ok := false; md5hex := EmptyString; err := what |}
  end.

(** [path.filename().string()]: what follows the last directory separator. *)
Fixpoint filename_from (s : string) (cand : string) : string :=
  match s with
  | EmptyString => cand
  | String c r =>
      if Ascii.eqb c "/"%char then filename_from r r else filename_from r cand
  end.

Definition filename (p : string) : string := filename_from p p.

(** The line the collector writes for one slot (lines 190-194). *)
Definition output_line (p : string) (res : Result) : string :=
  if ok res then filename p +:+ TAB +:+ md5hex res +:+ NL
  else filename p +:+ TAB +:+ "ERROR: " +:+ err res +:+ NL.

(** [for (i = 0; i < files.size(); ++i) q.push(Task{i, files[i]});] *)
Fixpoint enqueue_from (i : nat) (files : list string) : list Task :=
  match files with
  | [] => []
  | p :: rest => {| index := i; path := p |} :: enqueue_from (S i) rest
  end.

(** Where a worker thread stands in its loop. *)
Inductive worker_pc :=
| Waiting
| Hashing (t : Task)
| Publishing (t : Task) (r : Result)
| Exited.

(** Where the main thread stands after the pool is started. *)
Inductive main_pc :=
| Collecting
| Joining (k : nat)
| Returned.

Record state := {
  q : list Task;
  results : list (option Result);
  done : bool;
  pool : list worker_pc;
  next : nat;
  cout : list string;
  pc : main_pc
}.

Definition initial (threads : nat) (files : list string) : state :=
  {| q := enqueue_from 0 files;
     results := replicate (length files) None;
     done := false;
     pool := replicate threads Waiting;
     next := 0;
     cout := [];
     pc := Collecting |}.

(** ** The worker pool and the collector as a transition system *)

(** The observable actions: each is one critical section or one stretch of
    thread-local code of the source. *)
Inductive event :=
| ev_dequeue (w : nat) (t : Task)
| ev_hash (w : nat) (t : Task)
| ev_publish (w : nat) (i : nat)
| ev_exit (w : nat)
| ev_emit (i : nat)
| ev_close
| ev_join (w : nat)
| ev_return.

Definition set_pool (s : state) (w : nat) (c : worker_pc) : state :=
  {| q := q s; results := results s; done := done s;
     pool := <[w := c]> (pool s);
     next := next s; cout := cout s; pc := pc s |}.

Definition pop_queue (s : state) (q' : list Task) : state :=
  {| q := q'; results := results s; done := done s; pool := pool s;
     next := next s; cout := cout s; pc := pc s |}.

Definition store_result (s : state) (i : nat) (r : Result) : state :=
  {| q := q s; results := <[i := Some r]> (results s); done := done s;
     pool := pool s; next := next s; cout := cout s; pc := pc s |}.

Definition emit_line (s : state) (line : string) : state :=
  {| q := q s; results := results s; done := done s; pool := pool s;
     next := S (next s); cout := cout s ++ [line]; pc := pc s |}.

Definition set_done (s : state) : state :=
  {| q := q s; results := results s; done := true; pool := pool s;
     next := next s; cout := cout s; pc := Joining 0 |}.

Definition set_pc (s : state) (c : main_pc) : state :=
  {| q := q s; results := results s; done := done s; pool := pool s;
     next := next s; cout := cout s; pc := c |}.

Inductive step `{MD5_API} (fs : filesystem) (files : list string)
  : state -> event -> state -> Prop :=
(** lines 149-153: the wait is over because the queue is not empty *)
| step_dequeue s w t q' :
    pool s !! w = Some Waiting ->
    q s = t :: q' ->
    step fs files s (ev_dequeue w t) (set_pool (pop_queue s q') w (Hashing t))
(** line 151: [done && q.empty()] *)
| step_exit s w :
    pool s !! w = Some Waiting ->
    done s = true ->
    q s = [] ->
    step fs files s (ev_exit w) (set_pool s w Exited)
(** lines 156-163, outside the lock *)
| step_hash s w t :
    pool s !! w = Some (Hashing t) ->
    step fs files s (ev_hash w t) (set_pool s w (Publishing t (hash_task fs t)))
(** lines 165-169 *)
| step_publish s w t r :
    pool s !! w = Some (Publishing t r) ->
    step fs files s (ev_publish w (index t))
      (set_pool (store_result s (index t) r) w Waiting)
(** lines 183-195: the slot at the cursor has a value *)
| step_emit s p res :
    pc s = Collecting ->
    files !! next s = Some p ->
    results s !! next s = Some (Some res) ->
    step fs files s (ev_emit (next s)) (emit_line s (output_line p res))
(** lines 183, 199-203: the loop condition fails *)
| step_close s :
    pc s = Collecting ->
    (length files <= next s)%nat ->
    step fs files s ev_close (set_done s)
(** line 205: [join] returns once the thread has finished *)
| step_join s k :
    pc s = Joining k ->
    pool s !! k = Some Exited ->
    step fs files s (ev_join k) (set_pc s (Joining (S k)))
(** line 206 *)
| step_return s k :
    pc s = Joining k ->
    (length (pool s) <= k)%nat ->
    step fs files s ev_return (set_pc s Returned).

(** A run from [s]: the events in the order they happen. *)
Inductive execution `{MD5_API} (fs : filesystem) (files : list string) (s : state)
  : list event -> state -> Prop :=
| exec_start : execution fs files s [] s
| exec_then tr s' e s'' :
    execution fs files s tr s' ->
    step fs files s' e s'' ->
    execution fs files s (tr ++ [e]) s''.

(** Projections of a trace. *)
Definition emitted (tr : list event) : list nat :=
  omap (fun e => match e with ev_emit i => Some i | _ => None end) tr.

Definition dequeued (tr : list event) : list Task :=
  omap (fun e => match e with ev_dequeue _ t => Some t | _ => None end) tr.

Definition hashed (tr : list event) : list Task :=
  omap (fun e => match e with ev_hash _ t => Some t | _ => None end) tr.

Definition published (tr : list event) : list nat :=
  omap (fun e => match e with ev_publish _ i => Some i | _ => None end) tr.

(** ** [main] *)

Record outcome := {
  exit_code : N;
  stdout : list string;
  stderr : list string
}.

Definition USAGE : string :=
  "USAGE: md5hash <directory/file> [more directories/files] [--threads N]" +:+ NL.

(** [main] up to the start of the pool: it returns early, or it reaches
    line 174 with the pool size, the sorted file list and the warnings
    written so far. *)
Inductive startup :=
| Exit (o : outcome)
| Start (threads : N) (files : list string) (cerr : list string).

Definition start (fs : filesystem) (argv : list string) : startup :=
  if (length argv <? 2)%nat then
    Exit {| exit_code := 1; stdout := [USAGE]; stderr := [] |}
  else
    match parse_args (tail argv) with
    | Fatal msg => Exit {| exit_code := 1; stdout := []; stderr := [msg +:+ NL] |}
    | Parsed threads inputs =>
        match inputs with
        | [] =>
            Exit {| exit_code := 1; stdout := [];
                    stderr := ["Error: no input paths provided" +:+ NL] |}
        | _ =>
            let '(files, cerr) := collect_all fs inputs [] [] in
            match files with
            | [] =>
                Exit {| exit_code := 1; stdout := [];
                        stderr := cerr ++ ["No files found." +:+ NL] |}
            | _ => Start threads (sort_files files) cerr
            end
        end
    end.

(** [std::vector<std::thread>::max_size()]: [PTRDIFF_MAX / sizeof(std::thread)]
    with libstdc++ on an LP64 target, where a [std::thread] is one
    [pthread_t] of 8 bytes. *)
Definition pool_max_size : N := (2 ^ 63 - 1) / 8.

(** A run of the program on a file system and a command line in which
    [main] returns.  [pool.reserve(threads)] (line 175) returns for a size
    up to [max_size()] only. *)
Inductive main_run `{MD5_API} (fs : filesystem) (argv : list string)
  : outcome -> Prop :=
| run_exit o :
    start fs argv = Exit o ->
    main_run fs argv o
| run_pool threads files cerr tr s :
    start fs argv = Start threads files cerr ->
    threads <= pool_max_size ->
    execution fs files (initial (N.to_nat threads) files) tr s ->
    pc s = Returned ->
    main_run fs argv {| exit_code := 0; stdout := cout s; stderr := cerr |}.

(** For a larger size [pool.reserve(threads)] throws [std::length_error].
    Nothing catches it: [std::terminate] ends the process before a worker
    is started or a line is written, and [main] does not return.  The error
    stream holds the warnings of the discovery, [cerr], followed by what
    the runtime reports of the exception. *)
Inductive main_abort (fs : filesystem) (argv : list string)
  : list string -> Prop :=
| abort_reserve threads files cerr :
    start fs argv = Start threads files cerr ->
    pool_max_size < threads ->
    main_abort fs argv cerr.

(** ** The threads as functions, the scheduler as a list of choices *)

(** Which thread runs next. *)
Inductive choice :=
| run_worker (w : nat)
| run_main.

(** One turn of the worker lambda (lines 145-171) for worker [w]; [None]
    when the worker is blocked in [cv.wait] or has returned. *)
Definition worker_turn `{MD5_API} (fs : filesystem) (s : state) (w : nat)
  : option (event * state) :=
  match pool s !! w with
  | Some Waiting =>
      match q s with
      | t :: q' => Some (ev_dequeue w t, set_pool (pop_queue s q') w (Hashing t))
      | [] => if done s then Some (ev_exit w, set_pool s w Exited) else None
      end
  | Some (Hashing t) =>
      Some (ev_hash w t, set_pool s w (Publishing t (hash_task fs t)))
  | Some (Publishing t r) =>
      Some (ev_publish w (index t),
            set_pool (store_result s (index t) r) w Waiting)
  | Some Exited | None => None
  end.

(** One turn of the main thread (lines 182-206); [None] when it is blocked
    in [cv.wait] or in [join], or has returned. *)
Definition main_turn (files : list string) (s : state) : option (event * state) :=
  match pc s with
  | Collecting =>
      match files !! next s with
      | Some p =>
          match results s !! next s with
          | Some (Some res) =>
              Some (ev_emit (next s), emit_line s (output_line p res))
          | _ => None
          end
      | None => Some (ev_close, set_done s)
      end
  | Joining k =>
      match pool s !! k with
      | Some Exited => Some (ev_join k, set_pc s (Joining (S k)))
      | Some _ => None
      | None => Some (ev_return, set_pc s Returned)
      end
  | Returned => None
  end.

Definition turn `{MD5_API} (fs : filesystem) (files : list string) (s : state)
  (c : choice) : option (event * state) :=
  match c with
  | run_worker w => worker_turn fs s w
  | run_main => main_turn files s
  end.

(** The trace and the state a schedule leads to; [None] when it picks a
    thread that cannot move. *)
Fixpoint run_schedule `{MD5_API} (fs : filesystem) (files : list string)
  (sched : list choice) (s : state) : option (list event * state) :=
  match sched with
  | [] => Some ([], s)
  | c :: sched' =>
      match turn fs files s c with
      | Some (e, s') =>
          match run_schedule fs files sched' s' with
          | Some (tr, s'') => Some (e :: tr, s'')
          | None => None
          end
      | None => None
      end
  end.

(** * The vocabulary of the properties *)

(** ** Hex digits *)

Definition is_upper_hex (c : ascii) : bool :=
  let n := N_of_ascii c in
  ((48 <=? n) && (n <=? 57)) || ((65 <=? n) && (n <=? 70)).

(** The two digits of a byte, high nibble first. *)
Definition two_digits (b : byte) : string :=
  String (hex_digit (Byte.to_N b / 16))
    (String (hex_digit (Byte.to_N b mod 16)) EmptyString).

Local Open Scope nat_scope.

(** ** The bytes that are hashed *)

(** The context the read loop of [md5_file_hex] leaves, which [MD5_Final]
    is called with (line 46). *)
Definition final_ctx `{MD5_API} (v : file_view) : MD5_CTX :=
  snd (read_loop (S (length (delivered v))) (ifstream_open v) MD5_Init).

(** The bytes that reach [MD5_Update]: the whole file when it is read to
    its end, the complete chunks when the device fails. *)
Definition hashed_bytes (v : file_view) : list byte :=
  if io_error v then
    take (N.to_nat BUF_SZ * (length (delivered v) / N.to_nat BUF_SZ)) (delivered v)
  else delivered v.

(** ** Results and expected output *)

(** The result of hashing the file at a path; the index of a task plays
    no part in it. *)
Definition hash_path `{MD5_API} (fs : filesystem) (p : string) : Result :=
  hash_task fs {| index := 0; path := p |}.

(** The text a complete run is expected to write: one line per file, in
    the order of the list. *)
Definition expected_output `{MD5_API} (fs : filesystem) (files : list string)
  : list string :=
  map (fun p => output_line p (hash_path fs p)) files.

Definition holds (c : worker_pc) : option Task :=
  match c with
  | Hashing t | Publishing t _ => Some t
  | _ => None
  end.

(** ** A measure of what is left of a run *)

Definition weight (c : worker_pc) : nat :=
  match c with
  | Waiting => 1
  | Hashing _ => 3
  | Publishing _ _ => 2
  | Exited => 0
  end.

Definition pc_weight (threads : nat) (c : main_pc) : nat :=
  match c with
  | Collecting => threads + 2
  | Joining j => S (threads - j)
  | Returned => 0
  end.

Definition measure (files : list string) (s : state) : nat :=
  3 * length (q s) + sum_list (map weight (pool s))
  + (length files - next s) + pc_weight (length (pool s)) (pc s).

(** ** Numerals *)

Definition is_digit (c : ascii) : bool :=
  match Stoul.digit_value c with Some _ => true | None => false end.

Definition starts_with_digit (s : string) : bool :=
  match s with
  | String c _ => is_digit c
  | EmptyString => false
  end.

(** What is left of a value once white space and a sign are removed. *)
Definition numeral_part (v : string) : string :=
  snd (Stoul.strip_sign (Stoul.skip_spaces v)).

(** Follows the words of the specification: a value is numeric when it is
    a decimal numeral, one or more digits and nothing else. *)
Definition numeric (v : string) : bool :=
  match v with
  | EmptyString => false
  | _ => forallb is_digit (list_ascii_of_string v)
  end.

(** ** Discovery, argument by argument *)

(** What one argument adds to the file list, and what it writes to the
    error stream. *)
Definition found_in (fs : filesystem) (arg : string) : list string :=
  fst (collect_files_from_arg fs arg []).

Definition warnings_of (fs : filesystem) (arg : string) : list string :=
  snd (collect_files_from_arg fs arg []).

(** ** The outcome of [main] *)

(** Whether [main] returns: it does unless the pool size is refused. *)
Definition main_returns (fs : filesystem) (argv : list string) : bool :=
  match start fs argv with
  | Exit _ => true
  | Start threads _ _ => (threads <=? pool_max_size)%N
  end.

(** Scheduling does not show in the outcome: this is the outcome of every
    run in which [main] returns, and there is such a run exactly when
    [main_returns] ([main_run_iff]).  It describes no run otherwise. *)
Definition main_outcome `{MD5_API} (fs : filesystem) (argv : list string) : outcome :=
  match start fs argv with
  | Exit o => o
  | Start threads files cerr =>
      {| exit_code := 0; stdout := expected_output fs files; stderr := cerr |}
  end.



(** ** The invariant *)

(** The invariant of the pool and the collector: what holds of the trace
    so far and of the state it led to. *)
Record Inv `{MD5_API} (fs : filesystem) (files : list string) (threads : nat)
  (tr : list event) (s : state) : Prop := {
  inv_results_len : length (results s) = length files;
  inv_pool_len : length (pool s) = threads;
  inv_queue : enqueue_from 0 files = dequeued tr ++ q s;
  inv_held : forall w c t,
    pool s !! w = Some c -> holds c = Some t ->
    t ∈ dequeued tr /\ results s !! index t = Some None;
  inv_held_unique : forall w w' c c' t t',
    pool s !! w = Some c -> pool s !! w' = Some c' ->
    holds c = Some t -> holds c' = Some t' -> index t = index t' -> w = w';
  inv_taken : forall t,
    t ∈ dequeued tr -> results s !! index t = Some None ->
    exists w c, pool s !! w = Some c /\ holds c = Some t;
  inv_queued : forall t, t ∈ q s -> results s !! index t = Some None;
  inv_published_nodup : NoDup (published tr);
  inv_published : forall i,
    i ∈ published tr <-> exists r, results s !! i = Some (Some r);
  inv_hashed_nodup : NoDup (hashed tr);
  inv_hashed : forall t,
    t ∈ hashed tr <-> t ∈ dequeued tr /\ forall w, pool s !! w <> Some (Hashing t);
  inv_result_value : forall i r,
    results s !! i = Some (Some r) ->
    exists p, files !! i = Some p /\ r = hash_path fs p;
  inv_publishing_value : forall w t r,
    pool s !! w = Some (Publishing t r) -> r = hash_task fs t;
  inv_emitted : emitted tr = seq 0 (next s);
  inv_next : next s <= length files;
  inv_cout : cout s = expected_output fs (take (next s) files);
  inv_prefix_filled : forall i,
    i < next s -> exists r, results s !! i = Some (Some r);
  inv_collecting : pc s = Collecting -> done s = false;
  inv_closed : pc s <> Collecting -> done s = true /\ next s = length files;
  inv_exited : forall w, pool s !! w = Some Exited -> done s = true;
  inv_joined : forall j, pc s = Joining j ->
    j <= threads /\ forall w, w < j -> pool s !! w = Some Exited;
  inv_returned : pc s = Returned ->
    forall w, w < threads -> pool s !! w = Some Exited
}.

(** ** A file system and schedules to run the model on *)

Definition bytes (s : string) : list byte := String.list_byte_of_string s.

(** A directory [data] with two readable files, one that cannot be opened
    and a subdirectory that is not descended into; a directory [empty]
    without entries and a directory [stale] whose traversal fails at once;
    a readable file [notes.txt]; a file [disk.img] on a device that fails
    when it is read; a character device. *)
Definition demo_fs : filesystem := {|
  status := fun p =>
    if String.eqb p "data" then ft_directory
    else if String.eqb p "data/sub" then ft_directory
    else if String.eqb p "empty" then ft_directory
    else if String.eqb p "stale" then ft_directory
    else if existsb (String.eqb p)
              ["data/a.txt"; "data/b.txt"; "data/c.bin"; "notes.txt"; "disk.img"]
    then ft_regular
    else if String.eqb p "/dev/null" then ft_character
    else ft_not_found;
  traverse := fun p =>
    if String.eqb p "data" then
      [dir_entry "data/c.bin"; dir_entry "data/sub"; dir_entry "data/b.txt";
       dir_entry "data/a.txt"]
    else if String.eqb p "stale" then [dir_failed]
    else [];
  open_file := fun p =>
    if String.eqb p "data/a.txt" then
      Some {| delivered := bytes "hello"; io_error := false |}
    else if String.eqb p "data/b.txt" then
      Some {| delivered := []; io_error := false |}
    else if String.eqb p "notes.txt" then
      Some {| delivered := bytes "abc"; io_error := false |}
    else if String.eqb p "disk.img" then
      Some {| delivered := bytes "hello"; io_error := true |}
    else None
|}.

Definition demo_files : list string := ["data/a.txt"; "data/b.txt"].

(** Two workers take one task each; worker 0 hashes and publishes. *)
Definition demo_schedule : list choice :=
  [run_worker 0; run_worker 1; run_worker 0; run_worker 0].

(** The same start, then the collector emits index 0, worker 1 finishes,
    index 1 is emitted, the queue is closed and the workers are joined. *)
Definition full_schedule : list choice :=
  demo_schedule ++
  [run_main; run_worker 1; run_worker 1; run_main; run_main;
   run_worker 1; run_worker 0; run_main; run_main; run_main].

Definition run_of (sched : list choice) : list event * state :=
  match run_schedule demo_fs demo_files sched (initial 2 demo_files) with
  | Some r => r
  | None => ([], initial 2 demo_files)
  end.

(** ** Discovery as a whole *)

(** The files [main] has collected when the loop over the inputs ends. *)
Definition discovered (fs : filesystem) (inputs : list string) : list string :=
  fst (collect_all fs inputs [] []).

(** The warning [collect_files_from_arg] writes for an argument that is
    neither a regular file nor a directory. *)
Definition warning_for (fs : filesystem) (arg : string) : string :=
  if exists_ fs arg then "Warning: skipping non-regular path: " +:+ arg +:+ NL
  else "Warning: path not found: " +:+ arg +:+ NL.

Definition unusable (fs : filesystem) (arg : string) : bool :=
  negb (is_regular_file fs arg) && negb (is_directory fs arg).

(** ** Digests and their text *)

(** What a single [MD5_Update] with all the bytes gives; no call for no
    byte, as in the loop ([if (got > 0)]). *)
Definition digest_of `{MD5_API} (content : list byte) : list byte :=
  MD5_Final (match content with [] => MD5_Init | _ => MD5_Update MD5_Init content end).

(** The value of an upper-case hexadecimal digit. *)
Definition unhex (c : ascii) : option N :=
  let n := N_of_ascii c in
  if ((48 <=? n) && (n <=? 57))%N then Some (n - 48)%N
  else if ((65 <=? n) && (n <=? 70))%N then Some (n - 55)%N
  else None.

(** Reading the text of a digest back, two digits per byte. *)
Fixpoint parse_hex (s : string) : option (list byte) :=
  match s with
  | EmptyString => Some []
  | String hi (String lo rest) =>
      match unhex hi, unhex lo, parse_hex rest with
      | Some h, Some l, Some bs =>
          match Byte.of_N (16 * h + l) with
          | Some b => Some (b :: bs)
          | None => None
          end
      | _, _, _ => None
      end
  | String _ EmptyString => None
  end.

(** ** Names *)

Definition no_slash (s : string) : bool :=
  forallb (fun c => negb (Ascii.eqb c "/")) (list_ascii_of_string s).

(** * collatz: the sequence of a number, printed by a child process

    A shallow embedding of [src/collatz.c].  [int] has 32 bits; an
    overflow of [3 * n + 1] and a value [atoi] cannot represent are
    undefined behaviour, kept apart from the results of the program. *)

Module Collatz.

Definition INT_MAX : Z := 2147483647.
Definition INT_MIN : Z := -2147483648.

Definition in_int (z : Z) : bool := ((INT_MIN <=? z) && (z <=? INT_MAX))%Z.

(** [atoi]: white space, a sign, the decimal digits that follow; 0 when
    there is no digit; not defined when the value is no [int]. *)
Definition atoi (nptr : string) : option Z :=
  let '(neg, s) := Stoul.strip_sign (Stoul.skip_spaces nptr) in
  match Stoul.digits s 0 false with
  | None => Some 0%Z
  | Some v =>
      let z := if neg then (- Z.of_N v)%Z else Z.of_N v in
      if in_int z then Some z else None
  end.

(** [printf("%d", n)] *)
Definition print_int (n : Z) : string := NilZero.string_of_int (Z.to_int n).

(** How the loop of the child is left. *)
Inductive ending :=
| at_one
| overflowed
| unfinished.

(** [while (n != 1) { printf("%d, ", n); if (n % 2 == 0) n = n / 2;
    else n = 3 * n + 1; }] unrolled at most [fuel] times; [out] is the text
    printed so far. *)
Fixpoint loop (fuel : nat) (n : Z) (out : string) : ending * string :=
  match fuel with
  | O => (unfinished, out)
  | S fuel' =>
      if (n =? 1)%Z then (at_one, out)
      else
        let out' := out +:+ print_int n +:+ ", " in
        if (Z.rem n 2 =? 0)%Z then loop fuel' (Z.quot n 2) out'
        else if in_int (3 * n) && in_int (3 * n + 1)
        then loop fuel' (3 * n + 1)%Z out'
        else (overflowed, out')
  end.

(** What [fork] returns to the caller: -1 with [errno] set (its text is
    what [perror] appends), 0 in the child, the child's id in the parent. *)
Inductive fork_result :=
| fork_failed (reason : string)
| in_child
| in_parent.

(** A process returns from [main] with an exit code and what it wrote to
    the two streams, or its behaviour is undefined, or it is still in the
    loop when the fuel is spent. *)
Inductive result :=
| Returns (code : Z) (out err : string)
| Undefined
| Unfinished.

Definition child (fuel : nat) (n : Z) : result :=
  match loop fuel n "Collatz sequence: " with
  | (at_one, out) => Returns 0 (out +:+ "1" +:+ NL) ""
  | (overflowed, _) => Undefined
  | (unfinished, _) => Unfinished
  end.

(** [main] in the process for which [fork] returned [fk]; the parent
    returns from [wait] once the child has ended. *)
Definition main (argv : list string) (fk : fork_result) (fuel : nat) : result :=
  match argv with
  | [] => Undefined
  | [prog; arg] =>
      match atoi arg with
      | None => Undefined
      | Some n =>
          if (n <=? 0)%Z then
            Returns 1 "" ("Error: Please enter a positive integer." +:+ NL)
          else
            match fk with
            | fork_failed reason =>
                Returns 1 "" ("Fork failed: " +:+ reason +:+ NL)
            | in_child => child fuel n
            | in_parent =>
                match child fuel n with
                | Returns _ _ _ => Returns 0 ("Child process completed." +:+ NL) ""
                | r => r
                end
            end
      end
  | prog :: _ => Returns 1 "" ("Usage: " +:+ prog +:+ " <positive integer>" +:+ NL)
  end.

(** The text for [2 ^ k], ..., 4, 2. *)
Fixpoint halvings (k : nat) : string :=
  match k with
  | O => ""
  | S k' => print_int (2 ^ Z.of_nat k) +:+ ", " +:+ halvings k'
  end.

End Collatz.

(** * Properties *)

(** ** Running the model on small inputs *)

Example stoul_12 : Stoul.stoul "12" = Stoul.Converted 12.
Proof. reflexivity. Qed.

Example stoul_8x : Stoul.stoul "8x" = Stoul.Converted 8.
Proof. reflexivity. Qed.

Example stoul_minus_5 : Stoul.stoul " -5" = Stoul.Converted (2 ^ 64 - 5).
Proof. reflexivity. Qed.

Example stoul_abc : Stoul.stoul "abc" = Stoul.invalid_argument.
Proof. reflexivity. Qed.

Example stoul_2_64 : Stoul.stoul "18446744073709551616" = Stoul.out_of_range.
Proof. reflexivity. Qed.

Example parse_two_inputs :
  parse_args ["a"; "--threads"; "3"; "b"] = Parsed 8 ["a"; "b"].
Proof. reflexivity. Qed.

Example parse_last_option_wins :
  parse_args ["--threads"; "32"; "a"; "--threads"; "12"] = Parsed 12 ["a"].
Proof. reflexivity. Qed.

Example md5_empty :
  render_hex (RFC1321.md5 []) = "D41D8CD98F00B204E9800998ECF8427E".
Proof. vm_compute. reflexivity. Qed.

Example md5_hello :
  md5_stream {| delivered := String.list_byte_of_string "hello"; io_error := false |}
  = "5D41402ABC4B2A76B9719D911017C592".
Proof. vm_compute. reflexivity. Qed.

Example filename_nested : filename "dir/sub/a.txt" = "a.txt".
Proof. reflexivity. Qed.

Example sort_files_ex :
  sort_files ["b/x"; "a/z"; "a/Z"; "a"] = ["a"; "a/Z"; "a/z"; "b/x"].
Proof. vm_compute. reflexivity. Qed.

(** ** Hex rendering *)

Lemma setw_put_hex_byte (b : byte) :
  setw_fill 2 "0"%char (put_hex (Byte.to_N b)) = two_digits b.
Proof. destruct b; reflexivity. Qed.

Lemma two_digits_upper_hex (b : byte) :
  forallb is_upper_hex (list_ascii_of_string (two_digits b)) = true.
Proof. destruct b; reflexivity. Qed.

Lemma render_hex_two_digits (digest : list byte) :
  render_hex digest =
  String.concat EmptyString
    (map (fun i => two_digits (nth i digest x00)) (seq 0 MD5_DIGEST_LENGTH)).
Proof.
  unfold render_hex. f_equal. apply map_ext. intros i.
  apply setw_put_hex_byte.
Qed.

Lemma string_length_app (a b : string) :
  String.length (a +:+ b) = (String.length a + String.length b)%nat.
Proof. induction a as [|c a IH]; simpl; [reflexivity | now f_equal]. Qed.

Lemma list_ascii_app (a b : string) :
  list_ascii_of_string (a +:+ b) = list_ascii_of_string a ++ list_ascii_of_string b.
Proof. induction a as [|c a IH]; simpl; [reflexivity | now f_equal]. Qed.

Lemma concat_cons2 (x y : string) (l : list string) :
  String.concat EmptyString (x :: y :: l)
  = x +:+ String.concat EmptyString (y :: l).
Proof. reflexivity. Qed.

Lemma concat_two_digits_length (bs : list byte) :
  String.length (String.concat EmptyString (map two_digits bs))
  = (2 * length bs)%nat.
Proof.
  induction bs as [|b [|b' bs] IH]; [reflexivity | reflexivity |].
  cbn [map] in *. rewrite concat_cons2, string_length_app, IH.
  cbn [length two_digits String.length]. lia.
Qed.

Lemma concat_two_digits_upper_hex (bs : list byte) :
  forallb is_upper_hex
    (list_ascii_of_string (String.concat EmptyString (map two_digits bs))) = true.
Proof.
  induction bs as [|b [|b' bs] IH]; [reflexivity | apply two_digits_upper_hex |].
  cbn [map] in *. rewrite concat_cons2, list_ascii_app, forallb_app, IH.
  rewrite two_digits_upper_hex. reflexivity.
Qed.

Lemma render_hex_bytes (digest : list byte) :
  render_hex digest =
  String.concat EmptyString
    (map two_digits (map (fun i => nth i digest x00) (seq 0 MD5_DIGEST_LENGTH))).
Proof. rewrite render_hex_two_digits, map_map. reflexivity. Qed.

Lemma render_hex_length (digest : list byte) :
  String.length (render_hex digest) = 32%nat.
Proof.
  rewrite render_hex_bytes, concat_two_digits_length, length_map, length_seq.
  reflexivity.
Qed.

Lemma render_hex_upper (digest : list byte) :
  forallb is_upper_hex (list_ascii_of_string (render_hex digest)) = true.
Proof. rewrite render_hex_bytes. apply concat_two_digits_upper_hex. Qed.

(** ** The task queue built by [main] *)

Lemma hash_task_path `{MD5_API} fs t : hash_task fs t = hash_path fs (path t).
Proof. reflexivity. Qed.

Lemma enqueue_from_lookup b files i :
  enqueue_from b files !! i
  = (fun p => {| index := b + i; path := p |}) <$> files !! i.
Proof.
  revert b i. induction files as [|p files IH]; intros b [|i]; simpl; try done.
  - by rewrite Nat.add_0_r.
  - rewrite IH. by replace (S b + i) with (b + S i) by lia.
Qed.

Lemma enqueue_from_length b files : length (enqueue_from b files) = length files.
Proof. revert b. induction files; intros; simpl; by f_equal. Qed.

Lemma enqueue_from_index b files :
  map index (enqueue_from b files) = seq b (length files).
Proof. revert b. induction files; intros; simpl; by f_equal. Qed.

Lemma enqueue_from_path b files : map path (enqueue_from b files) = files.
Proof. revert b. induction files; intros; simpl; by f_equal. Qed.

Lemma enqueue_elem files t :
  t ∈ enqueue_from 0 files -> files !! index t = Some (path t).
Proof.
  intros [i Hi]%list_elem_of_lookup. rewrite enqueue_from_lookup in Hi.
  destruct (files !! i) as [p|] eqn:Hp; simplify_eq/=. done.
Qed.

Lemma enqueue_index_inj files t t' :
  t ∈ enqueue_from 0 files -> t' ∈ enqueue_from 0 files ->
  index t = index t' -> t = t'.
Proof.
  intros Ht Ht' Hi. apply enqueue_elem in Ht, Ht'. rewrite Hi in Ht.
  destruct t, t'; simpl in *. simplify_eq. done.
Qed.

Lemma enqueue_NoDup files : NoDup (enqueue_from 0 files).
Proof.
  apply (NoDup_fmap_1 index). rewrite enqueue_from_index. apply NoDup_seq.
Qed.

(** ** Projections of a trace extended by one event *)

Lemma emitted_snoc tr e :
  emitted (tr ++ [e]) =
  emitted tr ++ match e with ev_emit i => [i] | _ => [] end.
Proof. unfold emitted. rewrite omap_app. by destruct e. Qed.

Lemma dequeued_snoc tr e :
  dequeued (tr ++ [e]) =
  dequeued tr ++ match e with ev_dequeue _ t => [t] | _ => [] end.
Proof. unfold dequeued. rewrite omap_app. by destruct e. Qed.

Lemma hashed_snoc tr e :
  hashed (tr ++ [e]) =
  hashed tr ++ match e with ev_hash _ t => [t] | _ => [] end.
Proof. unfold hashed. rewrite omap_app. by destruct e. Qed.

Lemma published_snoc tr e :
  published (tr ++ [e]) =
  published tr ++ match e with ev_publish _ i => [i] | _ => [] end.
Proof. unfold published. rewrite omap_app. by destruct e. Qed.

(** ** Runs compose *)

Lemma execution_app `{MD5_API} fs files s tr s' tr' s'' :
  execution fs files s tr s' ->
  execution fs files s' tr' s'' ->
  execution fs files s (tr ++ tr') s''.
Proof.
  intros H1 H2. induction H2 as [|tr' s2 e s3 _ IH Hstep].
  - by rewrite app_nil_r.
  - rewrite app_assoc. by eapply exec_then.
Qed.

Lemma execution_one `{MD5_API} fs files s e s' :
  step fs files s e s' -> execution fs files s [e] s'.
Proof. intros. apply (exec_then fs files s [] s); [constructor | done]. Qed.

(** A prefix of a run is a run. *)
Lemma execution_prefix `{MD5_API} fs files s tr1 tr2 s'' :
  execution fs files s (tr1 ++ tr2) s'' ->
  exists s', execution fs files s tr1 s' /\ execution fs files s' tr2 s''.
Proof.
  revert s''. induction tr2 as [|e tr2 IH] using rev_ind; intros s'' Hex.
  - rewrite app_nil_r in Hex. exists s''. split; [done | constructor].
  - rewrite app_assoc in Hex. inversion Hex as [Heq | tr s1 e' s2 Hex' Hstep Heq].
    + by destruct tr1, tr2.
    + apply app_inj_tail in Heq as [-> ->].
      destruct (IH _ Hex') as (s' & Ha & Hb).
      exists s'. split; [done |]. by eapply exec_then.
Qed.

(** ** The invariant of the pool and the collector *)

Section Pool.
Context `{MD5_API} (fs : filesystem) (files : list string) (threads : nat).

Lemma Inv_initial : Inv fs files threads [] (initial threads files).
Proof.
  split; simpl; try done.
  - apply length_replicate.
  - apply length_replicate.
  - intros w c t [-> _]%lookup_replicate. done.
  - intros w w' c c' t t' [-> _]%lookup_replicate. done.
  - intros t Ht. inversion Ht.
  - intros t Ht. apply lookup_replicate. split; [done |].
    apply enqueue_elem in Ht. by apply lookup_lt_Some in Ht.
  - constructor.
  - intros i. split; [intros Hi; inversion Hi |].
    intros [r [? _]%lookup_replicate]. done.
  - constructor.
  - intros t. split; [intros Ht; inversion Ht | intros [Ht _]; inversion Ht].
  - intros i r [? _]%lookup_replicate. done.
  - intros w t r [? _]%lookup_replicate. done.
  - lia.
  - intros i Hi. lia.
  - intros w [? _]%lookup_replicate. done.
Qed.

(** *** Every step preserves the invariant *)

(** Names for the fields of the invariant of the state before a step. *)
Ltac open_inv H :=
  destruct H as [I_results_len I_pool_len I_queue I_held I_held_unique
                 I_taken I_queued I_published_nodup I_published
                 I_hashed_nodup I_hashed I_result_value I_publishing_value
                 I_emitted I_next I_cout I_prefix_filled I_collecting
                 I_closed I_exited I_joined I_returned].

Ltac snoc_simpl :=
  rewrite ?dequeued_snoc, ?emitted_snoc, ?hashed_snoc, ?published_snoc, ?app_nil_r.

(** Case analysis on a lookup in an updated pool: the updated slot, or
    another one, for which [H] becomes the lookup in the old pool. *)
Ltac pool_case H :=
  let E := fresh "E" in
  apply list_lookup_insert_Some in H as [(<- & E & ?) | (? & H)];
  [ first [ discriminate E
          | match type of E with _ = ?c => is_var c; subst c end
          | injection E as ->
          | injection E as -> ->
          | idtac ]
  | ].

Lemma queue_split_disjoint deq qs t t' :
  enqueue_from 0 files = deq ++ qs -> t ∈ deq -> t' ∈ qs -> index t <> index t'.
Proof.
  intros Hq Ht Ht' Hi.
  assert (t = t').
  { apply (enqueue_index_inj files); rewrite ?Hq, ?elem_of_app; auto. }
  subst t'. pose proof (enqueue_NoDup files) as Hnd. rewrite Hq in Hnd.
  apply NoDup_app in Hnd as (_ & Hd & _). by apply (Hd t).
Qed.

Lemma lookup_insert_other (l : list worker_pc) w w0 c c0 c' :
  l !! w = Some c -> l !! w0 = Some c0 -> c <> c0 ->
  <[w := c']> l !! w0 = Some c0.
Proof.
  intros Hw Hw0 Hne. rewrite list_lookup_insert_ne; [done |].
  intros ->. congruence.
Qed.

Lemma Inv_dequeue tr s w t q' :
  Inv fs files threads tr s ->
  pool s !! w = Some Waiting -> q s = t :: q' ->
  Inv fs files threads (tr ++ [ev_dequeue w t]) (set_pool (pop_queue s q') w (Hashing t)).
Proof.
  intros Hinv Hw Hq. open_inv Hinv.
  assert (Htq : t ∈ q s) by (rewrite Hq; left).
  assert (Hwlt : w < length (pool s)) by (by eapply lookup_lt_Some).
  split; simpl; snoc_simpl; try done; eauto; rewrite ?length_insert; try done.
  - rewrite <- app_assoc. simpl. by rewrite <- Hq.
  - intros w0 c t0 Hl Hh. pool_case Hl.
    + injection Hh as <-. split; [apply elem_of_app; right; left | eauto].
    + destruct (I_held _ _ _ Hl Hh). split; [apply elem_of_app; by left | done].
  - intros w0 w' c c' t0 t' Hl Hl' Hh Hh' Hi.
    pool_case Hl; pool_case Hl'; try done.
    + injection Hh as <-. destruct (I_held _ _ _ Hl' Hh') as [Hd _].
      exfalso. eapply (queue_split_disjoint _ _ _ _ I_queue); eauto.
    + injection Hh' as <-. destruct (I_held _ _ _ Hl Hh) as [Hd _].
      exfalso. eapply (queue_split_disjoint _ _ _ _ I_queue); eauto.
    + eauto.
  - intros t0 [Hd | ->%list_elem_of_singleton]%elem_of_app Hr.
    + destruct (I_taken _ Hd Hr) as (w0 & c & Hl & Hh).
      exists w0, c. split; [| done].
      eapply lookup_insert_other; [done.. |]. intros <-. done.
    + exists w, (Hashing t). split; [| done]. by apply list_lookup_insert_eq.
  - intros t0 Ht0. apply I_queued. rewrite Hq. by right.
  - intros t0. rewrite I_hashed. split.
    + intros [Hd Hn]. split; [apply elem_of_app; by left |].
      intros w0 Hl. pool_case Hl; [| by eapply Hn].
      eapply (queue_split_disjoint _ _ _ _ I_queue); eauto.
    + intros [[Hd | ->%list_elem_of_singleton]%elem_of_app Hn].
      * split; [done |]. intros w0 Hl. apply (Hn w0).
        eapply lookup_insert_other; [done.. |]. done.
      * exfalso. apply (Hn w). by apply list_lookup_insert_eq.
  - intros w0 t0 r Hl. pool_case Hl. eauto.
  - intros w0 Hl. pool_case Hl. eauto.
  - intros j Hj. destruct (I_joined j Hj) as [? Hex]. split; [done |].
    intros w0 Hw0. eapply lookup_insert_other; [done | eauto | done].
  - intros Hr w0 Hw0. rewrite <- I_pool_len in I_returned.
    specialize (I_returned Hr w Hwlt). congruence.
Qed.

Lemma Inv_exit tr s w :
  Inv fs files threads tr s ->
  pool s !! w = Some Waiting -> done s = true ->
  Inv fs files threads (tr ++ [ev_exit w]) (set_pool s w Exited).
Proof.
  intros Hinv Hw Hdone. open_inv Hinv.
  assert (Hwlt : w < length (pool s)) by (by eapply lookup_lt_Some).
  split; simpl; snoc_simpl; try done; eauto; rewrite ?length_insert; try done.
  - intros w0 c t0 Hl Hh. pool_case Hl; [done | eauto].
  - intros w0 w' c c' t0 t' Hl Hl' Hh Hh' Hi.
    pool_case Hl; pool_case Hl'; try done. eauto.
  - intros t0 Hd Hr. destruct (I_taken _ Hd Hr) as (w0 & c & Hl & Hh).
    exists w0, c. split; [| done].
    eapply lookup_insert_other; [done.. |]. intros <-. done.
  - intros t0. rewrite I_hashed. split; intros [Hd Hn]; (split; [done |]).
    + intros w0 Hl. pool_case Hl. by eapply Hn.
    + intros w0 Hl. apply (Hn w0). by eapply lookup_insert_other.
  - intros w0 t0 r Hl. pool_case Hl. eauto.
  - intros j Hj. destruct (I_joined j Hj) as [? Hex]. split; [done |].
    intros w0 Hw0. eapply lookup_insert_other; [done | eauto | done].
  - intros Hr w0 Hw0. eapply lookup_insert_other; [done | eauto | done].
Qed.

Lemma Inv_hash tr s w t :
  Inv fs files threads tr s ->
  pool s !! w = Some (Hashing t) ->
  Inv fs files threads (tr ++ [ev_hash w t])
    (set_pool s w (Publishing t (hash_task fs t))).
Proof.
  intros Hinv Hw. open_inv Hinv.
  assert (Hwlt : w < length (pool s)) by (by eapply lookup_lt_Some).
  destruct (I_held w _ t Hw eq_refl) as [Htd Htr].
  assert (Hnew : <[w:=Publishing t (hash_task fs t)]> (pool s) !! w
                 = Some (Publishing t (hash_task fs t)))
    by (by apply list_lookup_insert_eq).
  split; simpl; snoc_simpl; try done; eauto; rewrite ?length_insert; try done.
  - intros w0 c t0 Hl Hh. pool_case Hl; [| eauto]. by injection Hh as <-.
  - intros w0 w' c c' t0 t' Hl Hl' Hh Hh' Hi.
    pool_case Hl; pool_case Hl'; try done.
    + injection Hh as <-. symmetry. by eapply (I_held_unique w' w).
    + injection Hh' as <-. by eapply (I_held_unique w0 w).
    + eauto.
  - intros t0 Hd Hr. destruct (I_taken _ Hd Hr) as (w0 & c & Hl & Hh).
    destruct (decide (w0 = w)) as [-> | Hne].
    + rewrite Hw in Hl. injection Hl as <-. injection Hh as <-. eauto.
    + exists w0, c. by rewrite list_lookup_insert_ne.
  - apply NoDup_app. split; [done |]. split; [| apply NoDup_singleton].
    intros t0 Ht0 ->%list_elem_of_singleton.
    apply I_hashed in Ht0 as [_ Hn]. by apply (Hn w).
  - intros t0. rewrite elem_of_app, I_hashed, list_elem_of_singleton. split.
    + intros [[Hd Hn] | ->]; (split; [done |]); intros w0 Hl; pool_case Hl.
      * by eapply Hn.
      * apply H0. symmetry. by eapply (I_held_unique w0 w).
    + intros [Hd Hn]. destruct (decide (index t0 = index t)) as [Hi | Hi].
      * right. apply (enqueue_index_inj files); [| | done];
          rewrite I_queue; apply elem_of_app; by left.
      * left. split; [done |]. intros w0 Hl. apply (Hn w0).
        rewrite list_lookup_insert_ne; [done |]. intros <-.
        rewrite Hw in Hl. by injection Hl as <-.
  - intros w0 t0 r Hl. pool_case Hl; [done | eauto].
  - intros w0 Hl. pool_case Hl. eauto.
  - intros j Hj. destruct (I_joined j Hj) as [? Hex]. split; [done |].
    intros w0 Hw0. eapply lookup_insert_other; [done | eauto | done].
  - intros Hr w0 Hw0. eapply lookup_insert_other; [done | eauto | done].
Qed.

Lemma Inv_publish tr s w t r :
  Inv fs files threads tr s ->
  pool s !! w = Some (Publishing t r) ->
  Inv fs files threads (tr ++ [ev_publish w (index t)])
    (set_pool (store_result s (index t) r) w Waiting).
Proof.
  intros Hinv Hw. open_inv Hinv.
  assert (Hwlt : w < length (pool s)) by (by eapply lookup_lt_Some).
  destruct (I_held w _ t Hw eq_refl) as [Htd Htr].
  assert (Hilt : index t < length (results s)) by (by eapply lookup_lt_Some).
  assert (Hother : forall w0 c t0, pool s !! w0 = Some c -> holds c = Some t0 ->
                     w0 <> w -> index t0 <> index t).
  { intros w0 c t0 Hl Hh Hne Hi. apply Hne. by eapply (I_held_unique w0 w). }
  split; simpl; snoc_simpl; try done; eauto; rewrite ?length_insert; try done.
  - intros w0 c t0 Hl Hh. pool_case Hl; [done |].
    destruct (I_held _ _ _ Hl Hh) as [Hd Hr]. split; [done |].
    rewrite list_lookup_insert_ne; [done |]. intros Hi. by eapply Hother.
  - intros w0 w' c c' t0 t' Hl Hl' Hh Hh' Hi.
    pool_case Hl; pool_case Hl'; try done. eauto.
  - intros t0 Hd Hr.
    destruct (decide (index t = index t0)) as [Hi | Hi].
    { rewrite Hi, list_lookup_insert_eq in Hr; [done | by rewrite <- Hi]. }
    rewrite list_lookup_insert_ne in Hr by done.
    destruct (I_taken _ Hd Hr) as (w0 & c & Hl & Hh).
    exists w0, c. split; [| done].
    rewrite list_lookup_insert_ne; [done |]. intros <-.
    rewrite Hw in Hl. injection Hl as <-. by injection Hh as <-.
  - intros t0 Ht0. rewrite list_lookup_insert_ne; [eauto |].
    by eapply queue_split_disjoint.
  - apply NoDup_app. split; [done |]. split; [| apply NoDup_singleton].
    intros i Hi ->%list_elem_of_singleton.
    apply I_published in Hi as [r0 Hr0]. congruence.
  - intros i. rewrite elem_of_app, I_published, list_elem_of_singleton.
    destruct (decide (index t = i)) as [<- | Hi].
    + rewrite list_lookup_insert_eq by done. split; [eauto | by right].
    + rewrite list_lookup_insert_ne by done. split; [| by left].
      intros [? | ->]; done.
  - intros t0. rewrite I_hashed. split; intros [Hd Hn]; (split; [done |]).
    + intros w0 Hl. pool_case Hl. by eapply Hn.
    + intros w0 Hl. apply (Hn w0). by eapply lookup_insert_other.
  - intros i r0 Hr0. destruct (decide (index t = i)) as [<- | Hi].
    + rewrite list_lookup_insert_eq in Hr0 by done. injection Hr0 as <-.
      exists (path t). split.
      * apply enqueue_elem. rewrite I_queue. apply elem_of_app. by left.
      * rewrite <- hash_task_path. eauto.
    + rewrite list_lookup_insert_ne in Hr0 by done. eauto.
  - intros w0 t0 r0 Hl. pool_case Hl. eauto.
  - intros i Hi. destruct (I_prefix_filled i Hi) as [r0 Hr0].
    exists r0. rewrite list_lookup_insert_ne; [done |]. intros <-. congruence.
  - intros w0 Hl. pool_case Hl. eauto.
  - intros j Hj. destruct (I_joined j Hj) as [? Hex]. split; [done |].
    intros w0 Hw0. eapply lookup_insert_other; [done | eauto | done].
  - intros Hr w0 Hw0. eapply lookup_insert_other; [done | eauto | done].
Qed.

Lemma Inv_emit tr s p res :
  Inv fs files threads tr s -> pc s = Collecting ->
  files !! next s = Some p -> results s !! next s = Some (Some res) ->
  Inv fs files threads (tr ++ [ev_emit (next s)]) (emit_line s (output_line p res)).
Proof.
  intros Hinv Hpc Hp Hres. open_inv Hinv.
  split; cbn [q results done pool next cout pc emit_line]; snoc_simpl;
    try done; eauto.
  - by rewrite seq_S, I_emitted.
  - by apply lookup_lt_Some in Hp.
  - rewrite (take_S_r _ _ _ Hp). unfold expected_output in *.
    rewrite map_app, I_cout. simpl. do 2 f_equal.
    destruct (I_result_value _ _ Hres) as (p' & Hp' & ->). congruence.
  - intros i Hi. destruct (decide (i = next s)) as [-> | Hne]; [eauto |].
    apply I_prefix_filled. lia.
Qed.

Lemma Inv_step tr s e s' :
  Inv fs files threads tr s -> step fs files s e s' ->
  Inv fs files threads (tr ++ [e]) s'.
Proof.
  intros Hinv Hstep. destruct Hstep.
  - by apply Inv_dequeue.
  - by apply Inv_exit.
  - by apply Inv_hash.
  - by apply Inv_publish.
  - by apply Inv_emit.
  - open_inv Hinv. split; simpl; snoc_simpl; try done; eauto.
    + intros _. split; [done | lia].
    + intros j [= <-]. split; [lia |]. intros w Hw. lia.
  - open_inv Hinv. split; simpl; snoc_simpl; try done; eauto.
    + intros _. apply I_closed. congruence.
    + intros j [= <-]. destruct (I_joined _ H0) as [Hk Hex]. split.
      * apply lookup_lt_Some in H1. lia.
      * intros w Hw. destruct (decide (w = k)) as [-> | Hne]; [done |].
        apply Hex. lia.
  - open_inv Hinv. split; simpl; snoc_simpl; try done; eauto.
    + intros _. apply I_closed. congruence.
    + intros _ w Hw. destruct (I_joined _ H0) as [Hk Hex]. apply Hex. lia.
Qed.

Lemma Inv_execution tr s :
  execution fs files (initial threads files) tr s -> Inv fs files threads tr s.
Proof.
  induction 1 as [| tr s' e s'' _ IH Hstep].
  - apply Inv_initial.
  - by eapply Inv_step.
Qed.
End Pool.

(** ** Every run ends: a measure that each step decreases *)

Lemma weight_insert (l : list worker_pc) w c c' :
  l !! w = Some c ->
  sum_list (map weight (<[w := c']> l)) + weight c
  = sum_list (map weight l) + weight c'.
Proof.
  revert w. induction l as [|x l IH]; intros [|w] Hw; simplify_eq/=; [lia |].
  specialize (IH _ Hw). lia.
Qed.

Lemma step_measure `{MD5_API} fs files s e s' :
  step fs files s e s' -> measure files s' < measure files s.
Proof.
  unfold measure.
  destruct 1 as [s w t q' Hw Hq | s w Hw Hd Hq | s w t Hw | s w t r Hw
                 | s p res Hpc Hp Hr | s Hpc Hn | s k Hpc Hk | s k Hpc Hk];
    simpl; rewrite ?length_insert, ?Hpc; simpl.
  - pose proof (weight_insert _ _ _ (Hashing t) Hw). rewrite Hq. simpl in *. lia.
  - pose proof (weight_insert _ _ _ Exited Hw). simpl in *. lia.
  - pose proof (weight_insert _ _ _ (Publishing t (hash_task fs t)) Hw).
    simpl in *. lia.
  - pose proof (weight_insert _ _ _ Waiting Hw). simpl in *. lia.
  - apply lookup_lt_Some in Hp. lia.
  - lia.
  - apply lookup_lt_Some in Hk. lia.
  - lia.
Qed.

(** The length of a run is bounded by the measure of the state it starts in. *)
Lemma execution_bounded `{MD5_API} fs files s tr s' :
  execution fs files s tr s' -> length tr + measure files s' <= measure files s.
Proof.
  induction 1 as [| tr s' e s'' _ IH Hstep]; [simpl; lia |].
  apply step_measure in Hstep. rewrite length_app. simpl. lia.
Qed.

Section Progress.
Context `{MD5_API} (fs : filesystem) (files : list string) (threads : nat).
Hypothesis some_worker : 1 <= threads.

(** A worker that is not waiting can always move on. *)
Lemma busy_worker_steps s w c t :
  pool s !! w = Some c -> holds c = Some t -> exists e s', step fs files s e s'.
Proof.
  intros Hw Hh. destruct c; simplify_eq/=.
  - eexists _, _. by eapply step_hash.
  - eexists _, _. by eapply step_publish.
Qed.

(** No reachable state is stuck before [main] returns. *)
Lemma progress tr s :
  Inv fs files threads tr s -> pc s <> Returned ->
  exists e s', step fs files s e s'.
Proof.
  intros Hinv Hpc. destruct (pc s) as [| j |] eqn:Epc; [| | done].
  - destruct (files !! next s) as [p|] eqn:Hp; cycle 1.
    { apply lookup_ge_None in Hp. eexists _, _. by eapply step_close. }
    pose proof (lookup_lt_Some _ _ _ Hp) as Hlt.
    destruct (results s !! next s) as [[res|]|] eqn:Hr; cycle 2.
    { apply lookup_ge_None in Hr. rewrite (inv_results_len _ _ _ _ _ Hinv) in Hr. lia. }
    { eexists _, _. by eapply step_emit. }
    set (t := {| index := next s; path := p |}).
    assert (Ht : t ∈ enqueue_from 0 files).
    { apply list_elem_of_lookup. exists (next s).
      by rewrite enqueue_from_lookup, Hp. }
    rewrite (inv_queue _ _ _ _ _ Hinv) in Ht. apply elem_of_app in Ht as [Ht | Ht].
    + destruct (inv_taken _ _ _ _ _ Hinv t Ht Hr) as (w & c & Hw & Hh).
      by eapply busy_worker_steps.
    + destruct (pool s !! 0) as [c|] eqn:Hw; cycle 1.
      { apply lookup_ge_None in Hw. rewrite (inv_pool_len _ _ _ _ _ Hinv) in Hw. lia. }
      destruct c as [| t' | t' r |].
      * destruct (q s) as [|t0 q'] eqn:Hq; [by inversion Ht |].
        eexists _, _. by eapply step_dequeue.
      * by eapply (busy_worker_steps s 0).
      * by eapply (busy_worker_steps s 0).
      * apply (inv_exited _ _ _ _ _ Hinv) in Hw.
        rewrite (inv_collecting _ _ _ _ _ Hinv Epc) in Hw. done.
  - destruct (pool s !! j) as [c|] eqn:Hw; cycle 1.
    { apply lookup_ge_None in Hw. eexists _, _. by eapply step_return. }
    destruct c as [| t' | t' r |].
    + destruct (inv_closed _ _ _ _ _ Hinv) as [Hd Hn]; [congruence |].
      eexists _, _. eapply step_exit; [done..|].
      destruct (q s) as [|t0 q'] eqn:Hq; [done | exfalso].
      assert (Ht0 : t0 ∈ q s) by (rewrite Hq; left).
      pose proof (inv_queued _ _ _ _ _ Hinv t0 Ht0) as Hnone.
      destruct (inv_prefix_filled _ _ _ _ _ Hinv (index t0)) as [r Hr]; [| congruence].
      rewrite Hn. assert (Hin : t0 ∈ enqueue_from 0 files).
      { rewrite (inv_queue _ _ _ _ _ Hinv). apply elem_of_app. by right. }
      apply enqueue_elem in Hin. by apply lookup_lt_Some in Hin.
    + by eapply (busy_worker_steps s j).
    + by eapply (busy_worker_steps s j).
    + eexists _, _. by eapply step_join.
Qed.

(** From every reachable state the run can be completed. *)
Lemma run_completes tr s :
  Inv fs files threads tr s ->
  exists tr' s', execution fs files s tr' s' /\ pc s' = Returned.
Proof.
  remember (measure files s) as m eqn:Hm. revert tr s Hm.
  induction m as [m IH] using lt_wf_ind. intros tr s -> Hinv.
  assert (Hcases : pc s = Returned \/ pc s <> Returned)
    by (destruct (pc s); auto).
  destruct Hcases as [Hret | Hpc].
  { exists [], s. split; [constructor | done]. }
  destruct (progress tr s Hinv Hpc) as (e & s1 & Hstep).
  destruct (IH (measure files s1) (step_measure _ _ _ _ _ Hstep) (tr ++ [e]) s1 eq_refl)
    as (tr' & s' & Hex & Hret).
  { by eapply Inv_step. }
  exists (e :: tr'), s'. split; [| done].
  change (e :: tr') with ([e] ++ tr'). eapply execution_app; [| done].
  by apply execution_one.
Qed.

End Progress.

(** ** What a complete run has done *)

Section Complete.
Context `{MD5_API} (fs : filesystem) (files : list string) (threads : nat).
Context (tr : list event) (s : state).
Hypothesis run : execution fs files (initial threads files) tr s.
Hypothesis returned : pc s = Returned.

Lemma complete_next : next s = length files.
Proof.
  apply Inv_execution in run. apply (inv_closed _ _ _ _ _ run). congruence.
Qed.

Lemma complete_cout : cout s = expected_output fs files.
Proof.
  pose proof complete_next as Hn. apply Inv_execution in run.
  rewrite (inv_cout _ _ _ _ _ run), Hn. by rewrite firstn_all.
Qed.

Lemma complete_emitted : emitted tr = seq 0 (length files).
Proof.
  pose proof complete_next as Hn. apply Inv_execution in run.
  by rewrite (inv_emitted _ _ _ _ _ run), Hn.
Qed.

Lemma complete_queue_empty : q s = [].
Proof.
  pose proof complete_next as Hn. apply Inv_execution in run.
  destruct (q s) as [|t0 q'] eqn:Hq; [done | exfalso].
  assert (Ht0 : t0 ∈ q s) by (rewrite Hq; left).
  pose proof (inv_queued _ _ _ _ _ run t0 Ht0) as Hnone.
  destruct (inv_prefix_filled _ _ _ _ _ run (index t0)) as [r Hr]; [| congruence].
  rewrite Hn. assert (Hin : t0 ∈ enqueue_from 0 files).
  { rewrite (inv_queue _ _ _ _ _ run). apply elem_of_app. by right. }
  apply enqueue_elem in Hin. by apply lookup_lt_Some in Hin.
Qed.

Lemma complete_dequeued : dequeued tr = enqueue_from 0 files.
Proof.
  pose proof complete_queue_empty as Hq. apply Inv_execution in run.
  by rewrite (inv_queue _ _ _ _ _ run), Hq, app_nil_r.
Qed.

Lemma complete_hashed : hashed tr ≡ₚ enqueue_from 0 files.
Proof.
  pose proof complete_dequeued as Hd. apply Inv_execution in run.
  apply NoDup_Permutation.
  - apply (inv_hashed_nodup _ _ _ _ _ run).
  - apply enqueue_NoDup.
  - intros t. rewrite (inv_hashed _ _ _ _ _ run), Hd. split; [by intros [? _] |].
    intros Ht. split; [done |]. intros w Hw.
    pose proof (lookup_lt_Some _ _ _ Hw) as Hlt.
    rewrite (inv_pool_len _ _ _ _ _ run) in Hlt.
    rewrite (inv_returned _ _ _ _ _ run returned w Hlt) in Hw. done.
Qed.

Lemma complete_published : published tr ≡ₚ seq 0 (length files).
Proof.
  pose proof complete_next as Hn. apply Inv_execution in run.
  apply NoDup_Permutation.
  - apply (inv_published_nodup _ _ _ _ _ run).
  - apply NoDup_seq.
  - intros i. rewrite (inv_published _ _ _ _ _ run), elem_of_seq. split.
    + intros [r Hr]. apply lookup_lt_Some in Hr.
      rewrite (inv_results_len _ _ _ _ _ run) in Hr. lia.
    + intros [_ Hi]. apply (inv_prefix_filled _ _ _ _ _ run). lia.
Qed.

Lemma complete_workers_exited : pool s = replicate threads Exited.
Proof.
  apply Inv_execution in run. apply list_eq. intros w.
  destruct (decide (w < threads)) as [Hw | Hw].
  - rewrite (inv_returned _ _ _ _ _ run returned w Hw).
    symmetry. by apply lookup_replicate.
  - rewrite !lookup_ge_None_2; [done | |].
    + rewrite length_replicate. lia.
    + rewrite (inv_pool_len _ _ _ _ _ run). lia.
Qed.

End Complete.

(** ** The order on paths and the sorted file list *)

Lemma path_le_leb a b : path_le a b <-> String.leb a b = true.
Proof.
  unfold path_le, path_lt, String.ltb, String.leb.
  rewrite (String.compare_antisym a b).
  destruct (String.compare b a); simpl; split; congruence.
Qed.

Lemma string_leb_trans a b c :
  String.leb a b = true -> String.leb b c = true -> String.leb a c = true.
Proof.
  unfold String.leb. revert b c.
  induction a as [|x a IH]; intros [|y b] [|z c]; simpl; try done.
  unfold Ascii.compare.
  destruct (N.compare_spec (N_of_ascii x) (N_of_ascii y)) as [Hxy|Hxy|Hxy];
    destruct (N.compare_spec (N_of_ascii y) (N_of_ascii z)) as [Hyz|Hyz|Hyz];
    destruct (N.compare_spec (N_of_ascii x) (N_of_ascii z)) as [Hxz|Hxz|Hxz];
    try done; try lia.
  apply IH.
Qed.

#[global] Instance path_le_total : Total path_le.
Proof.
  intros a b. rewrite !path_le_leb. apply String.leb_total.
Qed.

#[global] Instance path_le_trans : Transitive path_le.
Proof.
  intros a b c. rewrite !path_le_leb. apply string_leb_trans.
Qed.

#[global] Instance path_le_antisym : AntiSymm (=) path_le.
Proof.
  intros a b. rewrite !path_le_leb. apply String.leb_antisym.
Qed.

Lemma sort_files_perm files : sort_files files ≡ₚ files.
Proof. apply merge_sort_Permutation. Qed.

Lemma sort_files_sorted files : StronglySorted path_le (sort_files files).
Proof. apply StronglySorted_merge_sort; apply _. Qed.

(** Whatever algorithm [std::sort] runs, its result is this list. *)
Lemma sort_files_unique files sorted :
  Sorted path_le sorted -> sorted ≡ₚ files -> sorted = sort_files files.
Proof.
  intros Hs Hp. apply (Sorted_unique path_le); [done | |].
  - apply Sorted_merge_sort. apply _.
  - by rewrite Hp, sort_files_perm.
Qed.

Lemma sort_files_length files : length (sort_files files) = length files.
Proof. by rewrite sort_files_perm. Qed.

Lemma sort_files_nil files : sort_files files = [] -> files = [].
Proof.
  intros Hs. apply Permutation_nil. by rewrite <- Hs, sort_files_perm.
Qed.

(** ** Option parsing *)

(** Induction that follows the loop: it consumes one or two arguments. *)
Lemma args_ind (P : list string -> Prop) :
  P [] -> (forall a, P [a]) ->
  (forall a b l, P l -> P (b :: l) -> P (a :: b :: l)) ->
  forall l, P l.
Proof.
  intros Hnil Hone Hstep l.
  assert (P l /\ forall a, P (a :: l)) as [? _]; [| done].
  induction l as [|b l [IH1 IH2]]; [by split |].
  split; [apply IH2 |]. intros a. apply Hstep; [done | apply IH2].
Qed.

Lemma parse_loop_two a b raw threads inputs :
  parse_loop (a :: b :: raw) threads inputs =
  if String.eqb a "--threads"
  then match Stoul.stoul b with
       | Stoul.Converted n => parse_loop raw (N.max 8 n) inputs
       | _ => Fatal "Error: invalid --threads value"
       end
  else parse_loop (b :: raw) threads (inputs ++ [a]).
Proof. reflexivity. Qed.


Lemma parse_loop_app pre post threads inputs threads' inputs' :
  parse_loop pre threads inputs = Parsed threads' inputs' ->
  parse_loop (pre ++ post) threads inputs = parse_loop post threads' inputs'.
Proof.
  revert threads inputs.
  induction pre as [| a | a b pre IH1 IH2] using args_ind; intros threads inputs.
  - simpl. by intros [= -> ->].
  - simpl. destruct (String.eqb a "--threads"); [done |]. by intros [= -> ->].
  - rewrite <- !app_comm_cons, !parse_loop_two.
    destruct (String.eqb a "--threads"); [| apply IH2].
    destruct (Stoul.stoul b); [apply IH1 | done | done].
Qed.

Lemma parse_loop_floor raw threads inputs threads' inputs' :
  parse_loop raw threads inputs = Parsed threads' inputs' ->
  (8 <= threads)%N -> (8 <= threads')%N.
Proof.
  revert threads inputs.
  induction raw as [| a | a b raw IH1 IH2] using args_ind; intros threads inputs.
  - simpl. by intros [= <- <-].
  - simpl. destruct (String.eqb a "--threads"); [done |]. by intros [= <- <-].
  - rewrite parse_loop_two.
    destruct (String.eqb a "--threads"); [| apply IH2].
    destruct (Stoul.stoul b) as [n | |]; [| done | done].
    intros Hp _. apply (IH1 _ _ Hp). lia.
Qed.

Lemma parse_args_floor raw threads inputs :
  parse_args raw = Parsed threads inputs -> (8 <= threads)%N.
Proof. intros Hp. by apply (parse_loop_floor _ _ _ _ _ Hp). Qed.


(** ** [std::stoul] *)

Lemma digits_started s acc : Stoul.digits s acc true <> None.
Proof.
  revert acc. induction s as [|c s IH]; intros acc; simpl; [done |].
  destruct (Stoul.digit_value c); [apply IH | done].
Qed.

Lemma digits_none_iff s :
  Stoul.digits s 0 false = None <-> starts_with_digit s = false.
Proof.
  destruct s as [|c s]; simpl; [done |]. unfold is_digit.
  destruct (Stoul.digit_value c); [| done].
  split; [| done]. intros Hd. by apply digits_started in Hd.
Qed.

(** No conversion is possible exactly when no digit follows the optional
    white space and sign. *)
Lemma stoul_invalid_iff v :
  Stoul.stoul v = Stoul.invalid_argument <-> starts_with_digit (numeral_part v) = false.
Proof.
  unfold Stoul.stoul, numeral_part. rewrite <- digits_none_iff.
  destruct (Stoul.strip_sign (Stoul.skip_spaces v)) as [neg s]. simpl.
  destruct (Stoul.digits s 0 false) as [n|]; [| done].
  destruct (Stoul.ULONG_MAX <? n)%N; split; done.
Qed.

Lemma stoul_range v n : Stoul.stoul v = Stoul.Converted n -> (n <= Stoul.ULONG_MAX)%N.
Proof.
  unfold Stoul.stoul.
  destruct (Stoul.strip_sign (Stoul.skip_spaces v)) as [neg s].
  destruct (Stoul.digits s 0 false) as [m|]; [| done].
  destruct (N.ltb_spec Stoul.ULONG_MAX m) as [Hlt | Hle]; [done |].
  intros [= <-]. destruct neg; [| done].
  pose proof (N.mod_lt (2 ^ 64 - m) (2 ^ 64))%N as Hm.
  unfold Stoul.ULONG_MAX in *. lia.
Qed.

(** ** File discovery *)

Lemma traverse_loop_app fs it out :
  traverse_loop fs it out = out ++ traverse_loop fs it [].
Proof.
  revert out. induction it as [|[p|] it IH]; intros out; simpl.
  - by rewrite app_nil_r.
  - destruct (is_regular_file fs p).
    + rewrite (IH (out ++ [p])), (IH [p]). by rewrite <- app_assoc.
    + apply IH.
  - by rewrite app_nil_r.
Qed.

Lemma collect_files_from_arg_app fs arg out :
  collect_files_from_arg fs arg out = (out ++ found_in fs arg, warnings_of fs arg).
Proof.
  unfold found_in, warnings_of, collect_files_from_arg.
  destruct (negb (exists_ fs arg)); [by rewrite app_nil_r |].
  destruct (is_regular_file fs arg); [done |].
  destruct (is_directory fs arg); simpl; [| by rewrite app_nil_r].
  by rewrite traverse_loop_app.
Qed.

Lemma collect_all_spec fs inputs files cerr :
  collect_all fs inputs files cerr =
  (files ++ concat (map (found_in fs) inputs),
   cerr ++ concat (map (warnings_of fs) inputs)).
Proof.
  revert files cerr. induction inputs as [|p inputs IH]; intros files cerr; simpl.
  - by rewrite !app_nil_r.
  - rewrite collect_files_from_arg_app, IH. by rewrite <- !app_assoc.
Qed.

(** Everything the traversal collects is a regular file it stood on. *)
Lemma traverse_loop_elem fs it p :
  p ∈ traverse_loop fs it [] -> dir_entry p ∈ it /\ is_regular_file fs p = true.
Proof.
  induction it as [|[p'|] it IH]; simpl;
    [by intros ?%elem_of_nil | | by intros ?%elem_of_nil].
  destruct (is_regular_file fs p') eqn:Hreg.
  - rewrite traverse_loop_app. intros [->%list_elem_of_singleton | Hin]%elem_of_app.
    + split; [left | done].
    + destruct (IH Hin). split; [by right | done].
  - intros Hin. destruct (IH Hin). split; [by right | done].
Qed.

(** ** [main] as a function of the command line and the file system *)

Lemma start_threads_floor fs argv threads files cerr :
  start fs argv = Start threads files cerr -> (8 <= threads)%N.
Proof.
  unfold start. destruct (length argv <? 2); [done |].
  destruct (parse_args (tail argv)) as [t inputs|] eqn:Hp; [| done].
  destruct inputs; [done |]. destruct (collect_all _ _ _ _) as [fl ce].
  destruct fl; [done |]. intros [= <- _ _]. by apply parse_args_floor in Hp.
Qed.

Lemma main_run_outcome `{MD5_API} fs argv o :
  main_run fs argv o -> o = main_outcome fs argv.
Proof.
  unfold main_outcome.
  intros [o' Hs | threads files cerr tr s Hs _ Hex Hret]; rewrite Hs; [done |].
  by rewrite (complete_cout fs files _ tr s Hex Hret).
Qed.

Lemma main_run_returns `{MD5_API} fs argv o :
  main_run fs argv o -> main_returns fs argv = true.
Proof.
  unfold main_returns.
  intros [o' Hs | threads files cerr tr s Hs Hle _ _]; rewrite Hs; [done |].
  by apply N.leb_le.
Qed.

Lemma main_returns_run `{MD5_API} fs argv :
  main_returns fs argv = true -> main_run fs argv (main_outcome fs argv).
Proof.
  unfold main_returns, main_outcome.
  destruct (start fs argv) as [o' | threads files cerr] eqn:Hs.
  - intros _. by apply run_exit.
  - intros Hle%N.leb_le.
    pose proof (start_threads_floor _ _ _ _ _ Hs) as Hfloor.
    destruct (run_completes fs files (N.to_nat threads)) with (tr := @nil event)
      (s := initial (N.to_nat threads) files) as (tr & s & Hex & Hret).
    { lia. }
    { apply Inv_initial. }
    rewrite <- (complete_cout fs files _ tr s Hex Hret).
    by eapply run_pool.
Qed.

Lemma main_run_iff `{MD5_API} fs argv o :
  main_run fs argv o <-> main_returns fs argv = true /\ o = main_outcome fs argv.
Proof.
  split.
  - intros Hrun. split; [by eapply main_run_returns | by apply main_run_outcome].
  - intros [Hret ->]. by apply main_returns_run.
Qed.

(** A run ends in one way: [main] returns or the process is aborted. *)
Lemma main_abort_iff fs argv cerr :
  main_abort fs argv cerr <->
  main_returns fs argv = false /\
  exists threads files, start fs argv = Start threads files cerr.
Proof.
  unfold main_returns. split.
  - intros [threads files ce Hs Hlt]. rewrite Hs.
    split; [by apply N.leb_gt | by eauto].
  - intros [Hret (threads & files & Hs)]. rewrite Hs in Hret.
    apply N.leb_gt in Hret. by eapply abort_reserve.
Qed.

(** ** The read loop of [md5_file_hex] *)

Lemma BUF_SZ_pos : 0 < N.to_nat BUF_SZ.
Proof.
  assert (0 < BUF_SZ)%N by done. generalize dependent BUF_SZ. intros. lia.
Qed.

Lemma read_loop_not_good `{MD5_API} fuel s ctx :
  good s = false -> read_loop fuel s ctx = (s, ctx).
Proof. intros Hg. destruct fuel; simpl; [done |]. by rewrite Hg. Qed.

(** The fuel [md5_stream] gives the loop is never what stops it: the loop
    is left because the stream is no longer good. *)
Lemma read_loop_ends `{MD5_API} fuel s ctx :
  length (pending s) < fuel -> good (fst (read_loop fuel s ctx)) = false.
Proof.
  revert s ctx. induction fuel as [|fuel IH]; intros s ctx Hlen; [lia |].
  simpl. destruct (good s) eqn:Hg; [| done].
  unfold read. pose proof BUF_SZ_pos as Hpos.
  destruct (N.leb_spec BUF_SZ (N.of_nat (length (pending s)))) as [Hfull | Hshort].
  - apply IH. simpl. rewrite length_drop. lia.
  - destruct (faulty s); by rewrite read_loop_not_good.
Qed.

Lemma md5_stream_short `{MD5_API} v :
  (N.of_nat (length (delivered v)) < BUF_SZ)%N ->
  md5_stream v =
  render_hex (MD5_Final
    (if io_error v then MD5_Init
     else if (0 <? N.of_nat (length (delivered v)))%N
          then MD5_Update MD5_Init (delivered v) else MD5_Init)).
Proof.
  destruct v as [d e]. cbn [delivered io_error]. intros Hshort.
  unfold md5_stream, ifstream_open. cbn [read_loop good delivered io_error].
  unfold read. cbn [pending faulty].
  destruct (N.leb_spec BUF_SZ (N.of_nat (length d))) as [Hfull | _]; [lia |].
  destruct e; by rewrite read_loop_not_good.
Qed.

(** A failure to open is reported, and an opened file always yields 32
    characters. *)
Lemma hash_task_open_failure `{MD5_API} fs t :
  open_file fs (path t) = None ->
  hash_task fs t = {| ok := false; md5hex := ""; err := "cannot open file" |}.
Proof. intros Ho. unfold hash_task, md5_file_hex. by rewrite Ho. Qed.

Lemma hash_task_opened `{MD5_API} fs t v :
  open_file fs (path t) = Some v ->
  hash_task fs t = {| ok := true; md5hex := md5_stream v; err := "" |}.
Proof. intros Ho. unfold hash_task, md5_file_hex. by rewrite Ho. Qed.

(** *** The digest the wrapper returns, with MD5 itself *)

Lemma read_loop_rfc1321 fuel (s : ifstream) (ctx : list byte) :
  good s = true -> length (pending s) < fuel ->
  snd (read_loop fuel s ctx) =
  ctx ++ hashed_bytes {| delivered := pending s; io_error := faulty s |}.
Proof.
  unfold hashed_bytes. cbn [delivered io_error].
  pose proof BUF_SZ_pos as Hpos.
  remember (N.to_nat BUF_SZ) as B eqn:HB. revert s ctx.
  induction fuel as [|fuel IH]; intros [g p f] ctx; cbn [good pending faulty];
    intros -> Hlen; [lia |].
  cbn [read_loop good]. unfold read. cbn [pending faulty].
  destruct (N.leb_spec BUF_SZ (N.of_nat (length p))) as [Hfull | Hshort].
  - rewrite <- HB. assert (HBp : B <= length p) by lia.
    rewrite length_take.
    destruct (N.ltb_spec 0 (N.of_nat (B `min` length p))) as [_ | ?]; [| lia].
    rewrite IH; cbn [good pending faulty]; [| done | rewrite length_drop; lia].
    cbn [MD5_Update rfc1321]. rewrite <- app_assoc. f_equal.
    rewrite length_drop. destruct f.
    + rewrite take_take_drop. f_equal.
      replace (length p) with ((length p - B) + 1 * B) at 2 by lia.
      rewrite Nat.div_add by lia. lia.
    + apply take_drop.
  - assert (HBp : length p < B) by lia. destruct f.
    + rewrite (read_loop_not_good fuel
                 {| good := false; pending := []; faulty := true |} _ eq_refl).
      cbn [snd length].
      rewrite Nat.div_small by lia. by rewrite Nat.mul_0_r, take_0, app_nil_r.
    + rewrite (read_loop_not_good fuel
                 {| good := false; pending := []; faulty := false |} _ eq_refl).
      cbn [snd].
      destruct p; [by rewrite app_nil_r | reflexivity].
Qed.

(** With the MD5 of RFC 1321, [md5_file_hex] returns the digest of the
    whole file when the file is read to its end, and the digest of the
    chunks read before the failure when the device fails. *)
Lemma md5_stream_rfc1321 (v : file_view) :
  md5_stream v = render_hex (RFC1321.md5 (hashed_bytes v)).
Proof.
  unfold md5_stream.
  pose proof (read_loop_rfc1321 (S (length (delivered v))) (ifstream_open v) []
                eq_refl ltac:(simpl; lia)) as Hloop.
  destruct (read_loop _ _ _) as [s ctx]. cbn [snd] in Hloop.
  cbn [MD5_Final rfc1321]. rewrite Hloop. by destruct v.
Qed.

(** ** Schedules *)

Lemma turn_sound `{MD5_API} fs files s c e s' :
  turn fs files s c = Some (e, s') -> step fs files s e s'.
Proof.
  destruct c as [w|]; simpl.
  - unfold worker_turn. destruct (pool s !! w) as [[| t | t r |]|] eqn:Hw; try done.
    + destruct (q s) as [|t q'] eqn:Hq.
      * destruct (done s) eqn:Hd; [| done]. intros [= <- <-]. by constructor.
      * intros [= <- <-]. by constructor.
    + intros [= <- <-]. by constructor.
    + intros [= <- <-]. by constructor.
  - unfold main_turn. destruct (pc s) as [| k |] eqn:Hpc; [| | done].
    + destruct (files !! next s) as [p|] eqn:Hp.
      * destruct (results s !! next s) as [[res|]|] eqn:Hr; try done.
        intros [= <- <-]. by constructor.
      * intros [= <- <-]. constructor; [done |]. by apply lookup_ge_None.
    + destruct (pool s !! k) as [[| t | t r |]|] eqn:Hk; try done.
      * intros [= <- <-]. by constructor.
      * intros [= <- <-]. econstructor; [done |]. by apply lookup_ge_None.
Qed.

(** Every step of the transition system is the turn of some thread. *)
Lemma turn_complete `{MD5_API} fs files s e s' :
  step fs files s e s' -> exists c, turn fs files s c = Some (e, s').
Proof.
  destruct 1 as [s w t q' Hw Hq | s w Hw Hd Hq | s w t Hw | s w t r Hw
                 | s p res Hpc Hp Hr | s Hpc Hn | s k Hpc Hk | s k Hpc Hk].
  - exists (run_worker w). simpl. unfold worker_turn. by rewrite Hw, Hq.
  - exists (run_worker w). simpl. unfold worker_turn. by rewrite Hw, Hq, Hd.
  - exists (run_worker w). simpl. unfold worker_turn. by rewrite Hw.
  - exists (run_worker w). simpl. unfold worker_turn. by rewrite Hw.
  - exists run_main. simpl. unfold main_turn. by rewrite Hpc, Hp, Hr.
  - exists run_main. simpl. unfold main_turn.
    apply lookup_ge_None in Hn. by rewrite Hpc, Hn.
  - exists run_main. simpl. unfold main_turn. by rewrite Hpc, Hk.
  - exists run_main. simpl. unfold main_turn.
    apply lookup_ge_None in Hk. by rewrite Hpc, Hk.
Qed.

Lemma run_schedule_sound `{MD5_API} fs files sched s tr s' :
  run_schedule fs files sched s = Some (tr, s') -> execution fs files s tr s'.
Proof.
  revert s tr. induction sched as [|c sched IH]; intros s tr; simpl.
  - intros [= <- <-]. constructor.
  - destruct (turn fs files s c) as [[e s1]|] eqn:Ht; [| done].
    destruct (run_schedule fs files sched s1) as [[tr1 s2]|] eqn:Hr; [| done].
    intros [= <- <-]. change (e :: tr1) with ([e] ++ tr1).
    eapply execution_app; [| by apply IH].
    apply execution_one. by eapply turn_sound.
Qed.

(** ** The model on the demonstration file system *)

Example demo_outcome :
  main_outcome demo_fs ["md5hash"; "data"] =
  {| exit_code := 0;
     stdout := ["a.txt" +:+ TAB +:+ "5D41402ABC4B2A76B9719D911017C592" +:+ NL;
                "b.txt" +:+ TAB +:+ "D41D8CD98F00B204E9800998ECF8427E" +:+ NL;
                "c.bin" +:+ TAB +:+ "ERROR: cannot open file" +:+ NL];
     stderr := [] |}.
Proof. vm_compute. reflexivity. Qed.

Example demo_warnings :
  main_outcome demo_fs ["md5hash"; "missing"; "/dev/null"; "--threads"; "2"] =
  {| exit_code := 1;
     stdout := [];
     stderr := ["Warning: path not found: missing" +:+ NL;
                "Warning: skipping non-regular path: /dev/null" +:+ NL;
                "No files found." +:+ NL] |}.
Proof. vm_compute. reflexivity. Qed.

Example full_schedule_trace :
  fst (run_of full_schedule) =
  [ev_dequeue 0 {| index := 0; path := "data/a.txt" |};
   ev_dequeue 1 {| index := 1; path := "data/b.txt" |};
   ev_hash 0 {| index := 0; path := "data/a.txt" |};
   ev_publish 0 0;
   ev_emit 0;
   ev_hash 1 {| index := 1; path := "data/b.txt" |};
   ev_publish 1 1;
   ev_emit 1;
   ev_close;
   ev_exit 1; ev_exit 0;
   ev_join 0; ev_join 1; ev_return].
Proof. vm_compute. reflexivity. Qed.

Lemma run_of_execution sched :
  is_Some (run_schedule demo_fs demo_files sched (initial 2 demo_files)) ->
  execution demo_fs demo_files (initial 2 demo_files)
    (fst (run_of sched)) (snd (run_of sched)).
Proof.
  unfold run_of. intros [[tr s] Hr]. rewrite Hr.
  by apply (run_schedule_sound _ _ sched).
Qed.

(** * The claims *)

(** ** C1 *)

Lemma emitted_elem tr i : i ∈ emitted tr -> ev_emit i ∈ tr.
Proof.
  unfold emitted. rewrite list_elem_of_omap. intros (e & He & Hi).
  destruct e; simplify_eq. done.
Qed.

Lemma step_emit_index `{MD5_API} fs files s i s' :
  step fs files s (ev_emit i) s' -> i = next s.
Proof. by inversion 1. Qed.

Lemma execution_nil `{MD5_API} fs files s s' :
  execution fs files s [] s' -> s' = s.
Proof.
  inversion 1 as [| tr0 s0 e0 s1 _ _ Heq]; [done |]. by destruct tr0.
Qed.

Lemma execution_first `{MD5_API} fs files s e tr s'' :
  execution fs files s (e :: tr) s'' -> exists s', step fs files s e s'.
Proof.
  change (e :: tr) with ([e] ++ tr). intros (s' & Hone & _)%execution_prefix.
  exists s'. inversion Hone as [| tr0 s0 e0 s1 Hex Hstep Heq].
  apply (app_inj_tail tr0 [] e0 e) in Heq as [-> ->].
  by apply execution_nil in Hex as ->.
Qed.

(** C1.  In every run the collector emits the indices 0, 1, 2, ... in this
    order: the emissions of a trace are exactly [0 .. next), so index [i > 0]
    is never emitted before index [i - 1]; and the emission of the slot at
    the cursor is enabled as soon as that slot is filled, whatever the state
    of the later slots and of the workers. *)
Theorem collector_emits_in_index_order `{MD5_API} fs files threads tr s :
  execution fs files (initial threads files) tr s ->
  emitted tr = seq 0 (next s) /\
  (forall tr1 i tr2, tr = tr1 ++ ev_emit i :: tr2 -> 0 < i -> ev_emit (i - 1) ∈ tr1) /\
  (forall p res,
     pc s = Collecting -> files !! next s = Some p ->
     results s !! next s = Some (Some res) ->
     step fs files s (ev_emit (next s)) (emit_line s (output_line p res))).
Proof.
  intros Hex. split; [| split].
  - apply (inv_emitted _ _ _ _ _ (Inv_execution _ _ _ _ _ Hex)).
  - intros tr1 i tr2 -> Hi.
    apply execution_prefix in Hex as (s1 & Hex1 & Hex2).
    apply execution_first in Hex2 as (s2 & Hstep).
    apply step_emit_index in Hstep as ->.
    apply emitted_elem.
    rewrite (inv_emitted _ _ _ _ _ (Inv_execution _ _ _ _ _ Hex1)).
    apply elem_of_seq. lia.
  - intros p res Hpc Hp Hr. by constructor.
Qed.

(** Index 0 is emitted while worker 1 is still hashing the file of index 1. *)
Lemma collector_emits_in_index_order_witness :
  execution demo_fs demo_files (initial 2 demo_files)
    (fst (run_of demo_schedule)) (snd (run_of demo_schedule)) /\
  pool (snd (run_of demo_schedule)) !! 1
    = Some (Hashing {| index := 1; path := "data/b.txt" |}) /\
  emitted (fst (run_of demo_schedule)) = [] /\
  step demo_fs demo_files (snd (run_of demo_schedule)) (ev_emit 0)
    (emit_line (snd (run_of demo_schedule))
       ("a.txt" +:+ TAB +:+ "5D41402ABC4B2A76B9719D911017C592" +:+ NL)).
Proof.
  assert (Hex : execution demo_fs demo_files (initial 2 demo_files)
                  (fst (run_of demo_schedule)) (snd (run_of demo_schedule))).
  { apply run_of_execution. vm_compute. eauto. }
  destruct (collector_emits_in_index_order _ _ _ _ _ Hex) as (Hem & _ & Hen).
  split; [exact Hex |]. split; [vm_compute; reflexivity |].
  split; [exact Hem |].
  apply (Hen "data/a.txt"
           {| ok := true; md5hex := "5D41402ABC4B2A76B9719D911017C592"; err := "" |});
    vm_compute; reflexivity.
Defined.

(** ** C2 *)

Lemma start_parsed fs argv threads inputs :
  parse_args (tail argv) = Parsed threads inputs -> inputs <> [] ->
  start fs argv =
  match fst (collect_all fs inputs [] []) with
  | [] => Exit {| exit_code := 1; stdout := [];
                  stderr := snd (collect_all fs inputs [] [])
                            ++ ["No files found." +:+ NL] |}
  | files => Start threads (sort_files files) (snd (collect_all fs inputs [] []))
  end.
Proof.
  intros Hp Hne. unfold start.
  destruct argv as [|prog [|a raw]].
  - simpl in Hp. unfold parse_args in Hp. simpl in Hp. by simplify_eq.
  - simpl in Hp. unfold parse_args in Hp. simpl in Hp. by simplify_eq.
  - cbn [length Nat.ltb Nat.leb]. rewrite Hp.
    destruct inputs as [|i inputs]; [done |].
    by destruct (collect_all fs (i :: inputs) [] []) as [[|f fl] ce].
Qed.

(** C2.  The text written to the output stream depends on the input paths
    and the file system only: two runs whose command lines name the same
    inputs write the same text, whatever worker counts were asked for and
    however the workers were scheduled.  When files were discovered, the
    text has one line per discovered file, in sorted path order. *)
Theorem output_independent_of_workers `{MD5_API} fs argv1 argv2 t1 t2 inputs o1 o2 :
  parse_args (tail argv1) = Parsed t1 inputs ->
  parse_args (tail argv2) = Parsed t2 inputs ->
  inputs <> [] ->
  main_run fs argv1 o1 -> main_run fs argv2 o2 ->
  stdout o1 = stdout o2 /\
  (fst (collect_all fs inputs [] []) <> [] ->
   let sorted := sort_files (fst (collect_all fs inputs [] [])) in
   stdout o1 = map (fun p => output_line p (hash_path fs p)) sorted /\
   length (stdout o1) = length (fst (collect_all fs inputs [] [])) /\
   sorted ≡ₚ fst (collect_all fs inputs [] []) /\
   StronglySorted path_le sorted).
Proof.
  intros Hp1 Hp2 Hne ->%main_run_outcome ->%main_run_outcome. unfold main_outcome.
  rewrite (start_parsed fs argv1 t1 inputs Hp1 Hne).
  rewrite (start_parsed fs argv2 t2 inputs Hp2 Hne).
  destruct (fst (collect_all fs inputs [] [])) as [|f fl] eqn:Hfiles.
  - split; [done |]. by intros [].
  - split; [done |]. intros _. cbn [stdout]. split; [done |].
    split; [| split].
    + unfold expected_output. by rewrite length_map, sort_files_length.
    + apply sort_files_perm.
    + apply sort_files_sorted.
Qed.

(** The same directory hashed with 8 and with 64 workers. *)
Lemma output_independent_of_workers_witness :
  stdout (main_outcome demo_fs ["md5hash"; "data"])
  = stdout (main_outcome demo_fs ["md5hash"; "--threads"; "64"; "data"]) /\
  length (stdout (main_outcome demo_fs ["md5hash"; "data"])) = 3.
Proof.
  destruct (output_independent_of_workers demo_fs
              ["md5hash"; "data"] ["md5hash"; "--threads"; "64"; "data"]
              8%N 64%N ["data"]
              (main_outcome demo_fs ["md5hash"; "data"])
              (main_outcome demo_fs ["md5hash"; "--threads"; "64"; "data"]))
    as [Hsame Hlines].
  - reflexivity.
  - reflexivity.
  - discriminate.
  - by apply main_returns_run.
  - by apply main_returns_run.
  - split; [exact Hsame |].
    destruct Hlines as (_ & Hlen & _); [vm_compute; discriminate |].
    rewrite Hlen. vm_compute. reflexivity.
Defined.

(** ** C5 *)

(** C5.  In every run no task is dequeued twice, hashed twice or published
    twice (a slot of the result table is written at most once) and only
    enqueued tasks are dequeued; the run can always be completed, and when
    [main] has returned every enqueued task has been dequeued, hashed and
    published exactly once, so that the results are as many as the tasks. *)
Theorem tasks_processed_exactly_once `{MD5_API} fs files threads tr s :
  1 <= threads ->
  execution fs files (initial threads files) tr s ->
  (NoDup (dequeued tr) /\ NoDup (hashed tr) /\ NoDup (published tr)) /\
  (forall t, t ∈ dequeued tr -> t ∈ enqueue_from 0 files) /\
  (exists tr' s', execution fs files s tr' s' /\ pc s' = Returned) /\
  (pc s = Returned ->
   dequeued tr = enqueue_from 0 files /\
   hashed tr ≡ₚ enqueue_from 0 files /\
   published tr ≡ₚ map index (enqueue_from 0 files) /\
   length (published tr) = length (enqueue_from 0 files) /\
   Forall (fun r => is_Some r) (results s)).
Proof.
  intros Hthreads Hex. pose proof (Inv_execution _ _ _ _ _ Hex) as Hinv.
  pose proof (enqueue_NoDup files) as Hnd.
  rewrite (inv_queue _ _ _ _ _ Hinv) in Hnd.
  split; [| split; [| split]].
  - split; [| split].
    + by apply NoDup_app in Hnd as [? _].
    + apply (inv_hashed_nodup _ _ _ _ _ Hinv).
    + apply (inv_published_nodup _ _ _ _ _ Hinv).
  - intros t Ht. rewrite (inv_queue _ _ _ _ _ Hinv). apply elem_of_app. by left.
  - by apply (run_completes fs files threads Hthreads tr).
  - intros Hret.
    pose proof (complete_published fs files threads tr s Hex Hret) as Hpub.
    split; [by apply (complete_dequeued fs files threads tr s) |].
    split; [by apply (complete_hashed fs files threads tr s) |].
    rewrite enqueue_from_index, enqueue_from_length.
    split; [done |]. split; [by rewrite Hpub, length_seq |].
    apply Forall_lookup. intros i r Hr.
    destruct (inv_prefix_filled _ _ _ _ _ Hinv i) as [r' Hr']; [| by simplify_eq].
    rewrite (complete_next fs files threads tr s Hex Hret).
    apply lookup_lt_Some in Hr. by rewrite (inv_results_len _ _ _ _ _ Hinv) in Hr.
Qed.

Lemma tasks_processed_exactly_once_witness :
  execution demo_fs demo_files (initial 2 demo_files)
    (fst (run_of full_schedule)) (snd (run_of full_schedule)) /\
  pc (snd (run_of full_schedule)) = Returned /\
  published (fst (run_of full_schedule)) ≡ₚ [0; 1] /\
  length (published (fst (run_of full_schedule))) = 2.
Proof.
  assert (Hex : execution demo_fs demo_files (initial 2 demo_files)
                  (fst (run_of full_schedule)) (snd (run_of full_schedule))).
  { apply run_of_execution. vm_compute. eauto. }
  assert (Hret : pc (snd (run_of full_schedule)) = Returned)
    by (vm_compute; reflexivity).
  destruct (tasks_processed_exactly_once demo_fs demo_files 2 _ _
              ltac:(lia) Hex) as (_ & _ & _ & Hdone).
  destruct (Hdone Hret) as (_ & _ & Hpub & Hlen & _).
  split; [exact Hex |]. split; [exact Hret |]. split; [exact Hpub | exact Hlen].
Defined.

(** ** C6 *)


Lemma start_exit_code fs argv o : start fs argv = Exit o -> exit_code o = 1%N.
Proof.
  unfold start. destruct (length argv <? 2); [by intros [= <-] |].
  destruct (parse_args (tail argv)) as [threads inputs | msg];
    [| by intros [= <-]].
  destruct inputs as [|i inputs]; [by intros [= <-] |].
  destruct (collect_all fs (i :: inputs) [] []) as [[|f fl] ce];
    [by intros [= <-] | done].
Qed.



(** ** C7 and C10 *)

(** C7 does not hold of the code.  The worker count [-5] is converted by
    [std::stoul] to [2^64 - 5], which [std::max] does not raise to the
    floor; [pool.reserve] refuses this size and the process is aborted: no
    worker is started and no line is written for [notes.txt], on no
    schedule.  With the worker count 1 the same file is hashed. *)
Theorem negative_worker_count_aborts :
  Stoul.stoul "-5" = Stoul.Converted (2 ^ 64 - 5) /\
  start demo_fs ["md5hash"; "--threads"; "-5"; "notes.txt"]
  = Start (2 ^ 64 - 5) ["notes.txt"] [] /\
  main_abort demo_fs ["md5hash"; "--threads"; "-5"; "notes.txt"] [] /\
  ~ (exists o, main_run demo_fs ["md5hash"; "--threads"; "-5"; "notes.txt"] o) /\
  main_run demo_fs ["md5hash"; "--threads"; "1"; "notes.txt"]
    {| exit_code := 0;
       stdout := ["notes.txt" +:+ TAB +:+ "900150983CD24FB0D6963F7D28E17F72" +:+ NL];
       stderr := [] |}.
Proof.
  assert (Hs : start demo_fs ["md5hash"; "--threads"; "-5"; "notes.txt"]
               = Start (2 ^ 64 - 5) ["notes.txt"] []) by (vm_compute; reflexivity).
  assert (Hlt : (pool_max_size < 2 ^ 64 - 5)%N) by (vm_compute; reflexivity).
  split; [vm_compute; reflexivity |]. split; [exact Hs |].
  split; [by eapply abort_reserve |]. split.
  - intros [o Hrun]. apply main_run_returns in Hrun.
    unfold main_returns in Hrun. rewrite Hs in Hrun.
    apply N.leb_le in Hrun. lia.
  - apply main_run_iff. split; vm_compute; reflexivity.
Qed.



(** ** C8 *)

(** C8 does not hold of the code.  [8x] is not numeric, yet it is not
    rejected: [std::stoul] converts its leading digit and nothing looks at
    what follows, so the run has 8 workers, hashes the file and exits with
    code 0.  The value [x8], on the other hand, is rejected as the claim
    says. *)
Lemma non_numeric_8x_is_accepted :
  numeric "8x" = false /\
  main_run demo_fs ["md5hash"; "--threads"; "8x"; "notes.txt"]
    {| exit_code := 0;
       stdout := ["notes.txt" +:+ TAB +:+ "900150983CD24FB0D6963F7D28E17F72" +:+ NL];
       stderr := [] |} /\
  ~ (forall o, main_run demo_fs ["md5hash"; "--threads"; "8x"; "notes.txt"] o ->
               exit_code o = 1%N /\ stdout o = []) /\
  numeric "x8" = false /\
  main_run demo_fs ["md5hash"; "--threads"; "x8"; "notes.txt"]
    {| exit_code := 1; stdout := [];
       stderr := ["Error: invalid --threads value" +:+ NL] |}.
Proof.
  assert (Hrun : main_run demo_fs ["md5hash"; "--threads"; "8x"; "notes.txt"]
            {| exit_code := 0;
               stdout := ["notes.txt" +:+ TAB
                          +:+ "900150983CD24FB0D6963F7D28E17F72" +:+ NL];
               stderr := [] |}).
  { apply main_run_iff. split; vm_compute; reflexivity. }
  split; [reflexivity |]. split; [exact Hrun |]. split.
  - intros Hall. by destruct (Hall _ Hrun).
  - split; [reflexivity |]. apply main_run_iff. split; vm_compute; reflexivity.
Qed.

(** ** C9 *)

Lemma concat_two_digits_cons (b : byte) (bs : list byte) :
  String.concat EmptyString (map two_digits (b :: bs))
  = String (hex_digit (Byte.to_N b / 16))
      (String (hex_digit (Byte.to_N b mod 16))
         (String.concat EmptyString (map two_digits bs))).
Proof. by destruct bs. Qed.

(** The characters at the positions [2 i] and [2 i + 1] are the digits of
    the high and of the low half of byte [i]. *)
Lemma get_concat_two_digits (bs : list byte) (i : nat) (b : byte) :
  bs !! i = Some b ->
  String.get (2 * i) (String.concat EmptyString (map two_digits bs))
  = Some (hex_digit (Byte.to_N b / 16)) /\
  String.get (2 * i + 1) (String.concat EmptyString (map two_digits bs))
  = Some (hex_digit (Byte.to_N b mod 16)).
Proof.
  revert i. induction bs as [|b' bs IH]; intros i Hi; [done |].
  rewrite concat_two_digits_cons. destruct i as [|i].
  - injection Hi as ->. by split.
  - replace (2 * S i) with (S (S (2 * i))) by lia.
    replace (S (S (2 * i)) + 1) with (S (S (2 * i + 1))) by lia.
    cbn [String.get]. by apply IH.
Qed.

Lemma lookup_digest_array (digest : list byte) (i : nat) :
  i < MD5_DIGEST_LENGTH ->
  map (fun i => nth i digest x00) (seq 0 MD5_DIGEST_LENGTH) !! i
  = Some (nth i digest x00).
Proof.
  intros Hi. change (map ?f ?l) with (f <$> l).
  rewrite list_lookup_fmap, lookup_seq_lt by done. done.
Qed.

Lemma digest_array_full (digest : list byte) :
  length digest = MD5_DIGEST_LENGTH ->
  map (fun i => nth i digest x00) (seq 0 MD5_DIGEST_LENGTH) = digest.
Proof.
  intros Hlen. apply nth_ext with (d := x00) (d' := x00).
  - by rewrite length_map, length_seq.
  - rewrite length_map, length_seq. intros i Hi.
    rewrite (nth_indep _ x00 (nth 0 digest x00)) by (by rewrite length_map, length_seq).
    rewrite (map_nth (fun i => nth i digest x00)), seq_nth by done. done.
Qed.

(** C9.  The digest of a file that was hashed successfully is the text of
    the 16 bytes [MD5_Final] stored for the context the read loop left: 32
    characters, for byte [i] of the digest the upper-case hexadecimal digit
    of its high half at position [2 i] and that of its low half at position
    [2 i + 1], a leading 0 kept. *)
Theorem digest_is_32_upper_hex `{MD5_API} fs t :
  ok (hash_task fs t) = true ->
  exists v,
    open_file fs (path t) = Some v /\
    String.length (md5hex (hash_task fs t)) = 32 /\
    forallb is_upper_hex (list_ascii_of_string (md5hex (hash_task fs t))) = true /\
    md5hex (hash_task fs t)
    = String.concat ""
        (map (fun i => two_digits (nth i (MD5_Final (final_ctx v)) x00))
             (seq 0 MD5_DIGEST_LENGTH)) /\
    (forall i, i < MD5_DIGEST_LENGTH ->
       String.get (2 * i) (md5hex (hash_task fs t))
       = Some (hex_digit (Byte.to_N (nth i (MD5_Final (final_ctx v)) x00) / 16)) /\
       String.get (2 * i + 1) (md5hex (hash_task fs t))
       = Some (hex_digit (Byte.to_N (nth i (MD5_Final (final_ctx v)) x00) mod 16))) /\
    (length (MD5_Final (final_ctx v)) = MD5_DIGEST_LENGTH ->
     md5hex (hash_task fs t)
     = String.concat "" (map two_digits (MD5_Final (final_ctx v)))) /\
    output_line (path t) (hash_task fs t)
    = filename (path t) +:+ TAB +:+ md5hex (hash_task fs t) +:+ NL.
Proof.
  unfold hash_task, md5_file_hex, output_line.
  destruct (open_file fs (path t)) as [v|]; [| done]. cbn [ok md5hex]. intros _.
  exists v. split; [done |].
  assert (Htext : md5_stream v = render_hex (MD5_Final (final_ctx v))).
  { unfold md5_stream, final_ctx. by destruct (read_loop _ _ _). }
  rewrite Htext.
  split; [apply render_hex_length |]. split; [apply render_hex_upper |].
  split; [apply render_hex_two_digits |]. split; [| split; [| done]].
  - intros i Hi. rewrite render_hex_bytes.
    apply get_concat_two_digits. by apply lookup_digest_array.
  - intros Hlen. by rewrite render_hex_bytes, digest_array_full.
Qed.

(** The digest of the empty file [data/b.txt] has the bytes [00] and [04]:
    their leading 0 is written. *)
Lemma digest_is_32_upper_hex_witness :
  md5hex (hash_task demo_fs {| index := 0; path := "data/b.txt" |})
  = "D41D8CD98F00B204E9800998ECF8427E" /\
  String.length (md5hex (hash_task demo_fs {| index := 0; path := "data/b.txt" |}))
  = 32 /\
  String.get 14 (md5hex (hash_task demo_fs {| index := 0; path := "data/b.txt" |}))
  = Some "0"%char.
Proof.
  split; [vm_compute; reflexivity |].
  destruct (digest_is_32_upper_hex demo_fs {| index := 0; path := "data/b.txt" |})
    as (v & Ho & Hlen & _ & _ & Hget & _).
  - vm_compute. reflexivity.
  - split; [exact Hlen |].
    destruct (Hget 7) as [H7 _]; [vm_compute; lia |].
    change (2 * 7) with 14 in H7. rewrite H7.
    vm_compute in Ho. injection Ho as <-. vm_compute. reflexivity.
Defined.

(** ** C3 *)

(** C3 does not hold of the code.  The device of [disk.img] fails when the
    file is read: the loop ends as it does at the end of a file, and the
    digest of the bytes hashed before the failure (here none: the digest of
    the empty input, that of the empty file [data/b.txt]) is stored as a
    success and written as a digest line.  A failure to open, on the other
    hand, is reported. *)
Theorem read_failure_yields_digest_of_prefix :
  open_file demo_fs "disk.img"
  = Some {| delivered := bytes "hello"; io_error := true |} /\
  hash_task demo_fs {| index := 0; path := "disk.img" |}
  = {| ok := true; md5hex := "D41D8CD98F00B204E9800998ECF8427E"; err := "" |} /\
  hash_task demo_fs {| index := 0; path := "disk.img" |}
  = hash_task demo_fs {| index := 1; path := "data/b.txt" |} /\
  main_run demo_fs ["md5hash"; "disk.img"]
    {| exit_code := 0;
       stdout := ["disk.img" +:+ TAB +:+ "D41D8CD98F00B204E9800998ECF8427E" +:+ NL];
       stderr := [] |} /\
  hash_task demo_fs {| index := 2; path := "data/c.bin" |}
  = {| ok := false; md5hex := ""; err := "cannot open file" |}.
Proof.
  repeat split; try (vm_compute; reflexivity).
  apply main_run_iff. split; vm_compute; reflexivity.
Qed.

(** ** C4 *)






(** * Further properties of the program *)

(** ** The command line *)

Lemma start_fatal fs argv msg :
  2 <= length argv -> parse_args (tail argv) = Fatal msg ->
  start fs argv = Exit {| exit_code := 1; stdout := []; stderr := [msg +:+ NL] |}.
Proof.
  intros Hlen Hp. unfold start.
  destruct (Nat.ltb_spec (length argv) 2) as [? | _]; [lia |]. by rewrite Hp.
Qed.

(** X1.  When the worker-count option is the last argument, with no value
    after it, [main] returns 1: the error stream holds the one message
    that the option requires a number, the output stream nothing, and no
    file is looked at. *)
Theorem threads_option_without_value_is_fatal `{MD5_API}
    fs prog pre threads0 inputs0 o :
  parse_args pre = Parsed threads0 inputs0 ->
  main_run fs (prog :: pre ++ ["--threads"]) o ->
  start fs (prog :: pre ++ ["--threads"]) = Exit o /\
  o = {| exit_code := 1; stdout := [];
         stderr := ["Error: --threads requires a number" +:+ NL] |}.
Proof.
  intros Hpre ->%main_run_outcome. unfold main_outcome.
  rewrite (start_fatal fs _ "Error: --threads requires a number").
  - done.
  - rewrite length_cons, length_app. simpl. lia.
  - cbn [tail]. unfold parse_args in *.
    by rewrite (parse_loop_app _ _ _ _ _ _ Hpre).
Qed.

Lemma threads_option_without_value_is_fatal_witness :
  main_outcome demo_fs ["md5hash"; "data"; "--threads"]
  = {| exit_code := 1; stdout := [];
       stderr := ["Error: --threads requires a number" +:+ NL] |}.
Proof.
  refine (proj2 (threads_option_without_value_is_fatal demo_fs "md5hash" ["data"]
                   8%N ["data"] _ _ _)).
  - reflexivity.
  - by apply main_returns_run.
Defined.

Lemma parse_loop_inputs raw threads inputs threads' inputs' :
  parse_loop raw threads inputs = Parsed threads' inputs' ->
  exists added,
    inputs' = inputs ++ added /\ sublist added raw /\ "--threads" ∉ added.
Proof.
  revert threads inputs.
  induction raw as [| a | a b raw IH1 IH2] using args_ind; intros threads inputs.
  - simpl. intros [= <- <-]. exists []. rewrite app_nil_r.
    split; [done |]. split; [constructor | apply not_elem_of_nil].
  - simpl. destruct (String.eqb_spec a "--threads") as [Heq | Hne]; [done |].
    intros [= <- <-]. exists [a]. split; [done |]. split; [done |].
    intros Hin%list_elem_of_singleton. congruence.
  - rewrite parse_loop_two.
    destruct (String.eqb_spec a "--threads") as [Heq | Hne].
    + subst a. destruct (Stoul.stoul b) as [n | |]; [| done | done].
      intros (added & -> & Hsub & Hno)%IH1. exists added.
      split; [done |]. split; [| done]. by do 2 apply sublist_cons.
    + intros (added & -> & Hsub & Hno)%IH2. exists (a :: added).
      split; [by rewrite <- app_assoc |]. split; [by apply sublist_skip |].
      by apply not_elem_of_cons.
Qed.

(** X2.  The input paths of a command line that parses are arguments of
    it, in the order in which they were given; an argument that reads
    [--threads] is never among them (a file of that name cannot be named
    as an input), and the pool size is at least 8. *)
Theorem inputs_are_arguments_in_order raw threads inputs :
  parse_args raw = Parsed threads inputs ->
  sublist inputs raw /\ ("--threads" ∉ inputs) /\ (8 <= threads)%N /\
  (length inputs <= length raw).
Proof.
  intros Hp. pose proof (parse_args_floor _ _ _ Hp) as Hfloor.
  apply parse_loop_inputs in Hp as (added & -> & Hsub & Hno). simpl.
  split; [done |]. split; [done |]. split; [done |]. by apply sublist_length.
Qed.

Lemma inputs_are_arguments_in_order_witness :
  sublist ["data"; "notes.txt"] ["data"; "--threads"; "12"; "notes.txt"].
Proof.
  refine (proj1 (inputs_are_arguments_in_order
                   ["data"; "--threads"; "12"; "notes.txt"] 12%N
                   ["data"; "notes.txt"] _)).
  reflexivity.
Defined.

Lemma digits_app_junk s junk acc any n :
  starts_with_digit junk = false ->
  Stoul.digits s acc any = Some n ->
  Stoul.digits (s +:+ junk) acc any = Some n.
Proof.
  intros Hjunk. revert acc any. induction s as [|c s IH]; intros acc any; simpl.
  - destruct any; [| done]. intros [= <-].
    destruct junk as [|c junk]; simpl in *; [done |].
    unfold is_digit in Hjunk. by destruct (Stoul.digit_value c).
  - destruct (Stoul.digit_value c); [apply IH | done].
Qed.

Lemma skip_spaces_app_junk s junk :
  Stoul.skip_spaces s <> EmptyString ->
  Stoul.skip_spaces (s +:+ junk) = Stoul.skip_spaces s +:+ junk.
Proof.
  induction s as [|c s IH]; simpl; [done |].
  destruct (Stoul.isspace c); [apply IH | done].
Qed.

Lemma strip_sign_app_junk s junk :
  s <> EmptyString ->
  Stoul.strip_sign (s +:+ junk)
  = (fst (Stoul.strip_sign s), snd (Stoul.strip_sign s) +:+ junk).
Proof.
  destruct s as [|c s]; [done |]. intros _. simpl.
  destruct (Ascii.eqb c "-"); [done |]. by destruct (Ascii.eqb c "+").
Qed.

Lemma stoul_app_junk v junk n :
  Stoul.stoul v = Stoul.Converted n ->
  starts_with_digit junk = false ->
  Stoul.stoul (v +:+ junk) = Stoul.Converted n.
Proof.
  unfold Stoul.stoul. intros Hv Hjunk.
  assert (Hne : Stoul.skip_spaces v <> EmptyString).
  { intros Hs. rewrite Hs in Hv. done. }
  rewrite (skip_spaces_app_junk _ _ Hne), (strip_sign_app_junk _ _ Hne).
  destruct (Stoul.strip_sign (Stoul.skip_spaces v)) as [neg s]. cbn [fst snd].
  destruct (Stoul.digits s 0 false) as [m|] eqn:Hd; [| done].
  by rewrite (digits_app_junk _ _ _ _ _ Hjunk Hd).
Qed.

(** The value of an option matters through its conversion only. *)
Lemma parse_loop_option_value pre v v' post threads inputs :
  Stoul.stoul v' = Stoul.stoul v ->
  parse_loop (pre ++ "--threads" :: v' :: post) threads inputs
  = parse_loop (pre ++ "--threads" :: v :: post) threads inputs.
Proof.
  intros Hv. revert threads inputs.
  induction pre as [| a | a b pre IH1 IH2] using args_ind; intros threads inputs.
  - cbn [app]. by rewrite !parse_loop_two, Hv.
  - cbn [app]. rewrite !(parse_loop_two a).
    destruct (String.eqb_spec a "--threads") as [Heq | Hne]; [done |].
    by rewrite !parse_loop_two, Hv.
  - rewrite <- !app_comm_cons, !(parse_loop_two a b).
    destruct (String.eqb a "--threads"); [| apply IH2].
    destruct (Stoul.stoul b); [apply IH1 | done | done].
Qed.

(** X3.  Text that follows the number in the value of the worker-count
    option, from its first character that is not a digit, is ignored: the
    program behaves as if the number alone had been given. *)
Theorem text_after_worker_count_is_ignored `{MD5_API}
    fs prog pre v junk post n o :
  Stoul.stoul v = Stoul.Converted n ->
  starts_with_digit junk = false ->
  main_run fs (prog :: pre ++ "--threads" :: (v +:+ junk) :: post) o <->
  main_run fs (prog :: pre ++ "--threads" :: v :: post) o.
Proof.
  intros Hv Hjunk. rewrite !main_run_iff.
  assert (Hsame : start fs (prog :: pre ++ "--threads" :: (v +:+ junk) :: post)
                  = start fs (prog :: pre ++ "--threads" :: v :: post)).
  { unfold start. rewrite !length_cons, !length_app. cbn [length tail].
    unfold parse_args.
    rewrite (parse_loop_option_value pre v (v +:+ junk)); [done |].
    rewrite Hv. by apply stoul_app_junk. }
  unfold main_returns, main_outcome. by rewrite Hsame.
Qed.

Lemma text_after_worker_count_is_ignored_witness :
  main_run demo_fs ["md5hash"; "--threads"; "16 workers"; "data"]
    (main_outcome demo_fs ["md5hash"; "--threads"; "16"; "data"]).
Proof.
  apply (text_after_worker_count_is_ignored demo_fs "md5hash" [] "16" " workers"
           ["data"] 16%N).
  - reflexivity.
  - reflexivity.
  - by apply main_returns_run.
Defined.

(** X22.  When the value of a worker-count option cannot be
    converted (no decimal digit follows its leading white space and
    optional sign, or the number does not fit [unsigned long]), [main]
    returns 1 before the file discovery and the pool: the error stream
    holds the one message, the output stream nothing. *)
Theorem unconvertible_worker_count_is_fatal `{MD5_API}
    fs prog pre v post threads0 inputs0 o :
  parse_args pre = Parsed threads0 inputs0 ->
  starts_with_digit (numeral_part v) = false
    \/ Stoul.stoul v = Stoul.out_of_range ->
  main_run fs (prog :: pre ++ "--threads" :: v :: post) o ->
  start fs (prog :: pre ++ "--threads" :: v :: post) = Exit o /\
  o = {| exit_code := 1; stdout := [];
         stderr := ["Error: invalid --threads value" +:+ NL] |}.
Proof.
  intros Hpre Hv ->%main_run_outcome. unfold main_outcome.
  assert (Hs : start fs (prog :: pre ++ "--threads" :: v :: post)
               = Exit {| exit_code := 1; stdout := [];
                         stderr := ["Error: invalid --threads value" +:+ NL] |}).
  { unfold start. rewrite length_cons, length_app. cbn [length].
    destruct (Nat.ltb_spec (S (length pre + S (S (length post)))) 2) as [? | _];
      [lia |].
    cbn [tail]. unfold parse_args in *.
    rewrite (parse_loop_app _ _ _ _ _ _ Hpre), parse_loop_two. cbn [String.eqb].
    change (String.eqb "--threads" "--threads") with true. cbn iota.
    destruct Hv as [Hv%stoul_invalid_iff | Hv]; by rewrite Hv. }
  by rewrite Hs.
Qed.

Lemma unconvertible_worker_count_is_fatal_witness :
  main_outcome demo_fs ["md5hash"; "data"; "--threads"; "many"; "notes.txt"]
  = {| exit_code := 1; stdout := [];
       stderr := ["Error: invalid --threads value" +:+ NL] |}.
Proof.
  refine (proj2 (unconvertible_worker_count_is_fatal demo_fs "md5hash" ["data"]
                   "many" ["notes.txt"] 8%N ["data"] _ _ _ _)).
  - reflexivity.
  - left. reflexivity.
  - by apply main_returns_run.
Defined.



(** ** File discovery *)

Lemma discovered_concat fs inputs :
  discovered fs inputs = concat (map (found_in fs) inputs).
Proof. unfold discovered. by rewrite collect_all_spec. Qed.

Lemma found_in_regular fs arg p :
  p ∈ found_in fs arg -> is_regular_file fs p = true.
Proof.
  unfold found_in, collect_files_from_arg.
  destruct (negb (exists_ fs arg)); [by intros ?%elem_of_nil |].
  destruct (is_regular_file fs arg) eqn:Hreg.
  { simpl. by intros ->%list_elem_of_singleton. }
  destruct (is_directory fs arg); [| by intros ?%elem_of_nil].
  simpl. by intros [_ ?]%traverse_loop_elem.
Qed.

Lemma elem_of_concat_fmap {A B} (f : A -> list B) (l : list A) b :
  b ∈ concat (map f l) -> exists a, a ∈ l /\ b ∈ f a.
Proof.
  intros (bs & Hbs & Hb)%list_elem_of_In%in_concat.
  apply in_map_iff in Hbs as (a & <- & Ha).
  exists a. split; by apply list_elem_of_In.
Qed.

Lemma start_files fs argv threads files cerr :
  start fs argv = Start threads files cerr ->
  exists inputs,
    parse_args (tail argv) = Parsed threads inputs /\ inputs <> [] /\
    discovered fs inputs <> [] /\
    files = sort_files (discovered fs inputs) /\
    cerr = snd (collect_all fs inputs [] []).
Proof.
  unfold start, discovered. destruct (length argv <? 2); [done |].
  destruct (parse_args (tail argv)) as [t inputs|]; [| done].
  destruct inputs as [|i inputs]; [done |].
  destruct (collect_all fs (i :: inputs) [] []) as [[|f fl] ce] eqn:Hc; [done |].
  intros [= <- <- <-]. exists (i :: inputs). by rewrite Hc.
Qed.

Lemma start_files_regular fs argv threads files cerr :
  start fs argv = Start threads files cerr ->
  forall p, p ∈ files -> status fs p = ft_regular.
Proof.
  intros (inputs & _ & _ & _ & -> & _)%start_files p.
  rewrite sort_files_perm, discovered_concat.
  intros (arg & _ & Hp%found_in_regular)%elem_of_concat_fmap.
  unfold is_regular_file in Hp. by destruct (status fs p).
Qed.

(** X4.  Only regular files are hashed: every path of the sorted file
    list had the status of a regular file when it was discovered (an
    input that is a directory, a device or missing is never opened), and
    in every run each task a worker dequeues or hashes is for such a
    path. *)
Theorem only_regular_files_are_hashed `{MD5_API} fs argv threads files cerr :
  start fs argv = Start threads files cerr ->
  (forall p, p ∈ files -> status fs p = ft_regular) /\
  forall tr s,
    execution fs files (initial (N.to_nat threads) files) tr s ->
    forall t, t ∈ dequeued tr \/ t ∈ hashed tr ->
      status fs (path t) = ft_regular /\ files !! index t = Some (path t).
Proof.
  intros Hs. pose proof (start_files_regular _ _ _ _ _ Hs) as Hreg.
  split; [done |]. intros tr s Hex t Ht.
  pose proof (Inv_execution _ _ _ _ _ Hex) as Hinv.
  assert (Hd : t ∈ dequeued tr).
  { destruct Ht as [? | Ht]; [done |].
    by apply (inv_hashed _ _ _ _ _ Hinv) in Ht as [? _]. }
  assert (Htask : t ∈ enqueue_from 0 files).
  { rewrite (inv_queue _ _ _ _ _ Hinv). apply elem_of_app. by left. }
  apply enqueue_elem in Htask. split; [| done].
  apply Hreg. by eapply list_elem_of_lookup_2.
Qed.

Lemma only_regular_files_are_hashed_witness :
  Forall (fun p => status demo_fs p = ft_regular)
    ["data/a.txt"; "data/b.txt"; "data/c.bin"; "notes.txt"].
Proof.
  apply Forall_forall.
  refine (proj1 (only_regular_files_are_hashed demo_fs
                   ["md5hash"; "data"; "/dev/null"; "notes.txt"; "empty"] 8%N
                   ["data/a.txt"; "data/b.txt"; "data/c.bin"; "notes.txt"]
                   ["Warning: skipping non-regular path: /dev/null" +:+ NL] _)).
  vm_compute. reflexivity.
Defined.

Lemma concat_map_Permutation {A B} (f : A -> list B) (l l' : list A) :
  l ≡ₚ l' -> concat (map f l) ≡ₚ concat (map f l').
Proof.
  induction 1 as [| a l l' _ IH | a b l | l1 l2 l3 _ IH1 _ IH2]; simpl.
  - done.
  - by rewrite IH.
  - rewrite !app_assoc. f_equiv. apply Permutation_app_comm.
  - by rewrite IH1.
Qed.

Lemma sort_files_Permutation_eq l l' : l ≡ₚ l' -> sort_files l = sort_files l'.
Proof.
  intros Hp. apply sort_files_unique.
  - apply Sorted_merge_sort. apply _.
  - by rewrite sort_files_perm.
Qed.

Lemma main_outcome_inputs `{MD5_API} fs argv threads inputs :
  parse_args (tail argv) = Parsed threads inputs -> inputs <> [] ->
  main_outcome fs argv =
  match discovered fs inputs with
  | [] => {| exit_code := 1; stdout := [];
             stderr := concat (map (warnings_of fs) inputs)
                       ++ ["No files found." +:+ NL] |}
  | _ => {| exit_code := 0;
            stdout := expected_output fs (sort_files (discovered fs inputs));
            stderr := concat (map (warnings_of fs) inputs) |}
  end.
Proof.
  intros Hp Hne. unfold main_outcome, discovered.
  rewrite (start_parsed fs argv threads inputs Hp Hne).
  rewrite collect_all_spec. cbn [fst snd app].
  by destruct (concat (map (found_in fs) inputs)).
Qed.

(** X5.  The order in which the input paths are given does not show in
    the output: two command lines whose inputs are the same up to their
    order lead to the same exit code and the same lines on the output
    stream, and to the same warnings up to their order. *)
Theorem order_of_inputs_is_irrelevant `{MD5_API}
    fs argv1 argv2 t1 t2 inputs1 inputs2 o1 o2 :
  parse_args (tail argv1) = Parsed t1 inputs1 ->
  parse_args (tail argv2) = Parsed t2 inputs2 ->
  inputs1 <> [] ->
  inputs1 ≡ₚ inputs2 ->
  main_run fs argv1 o1 -> main_run fs argv2 o2 ->
  exit_code o1 = exit_code o2 /\ stdout o1 = stdout o2 /\ stderr o1 ≡ₚ stderr o2.
Proof.
  intros Hp1 Hp2 Hne Hperm ->%main_run_outcome ->%main_run_outcome.
  assert (Hne2 : inputs2 <> []).
  { intros ->. by apply Permutation_nil_r in Hperm. }
  rewrite (main_outcome_inputs fs argv1 t1 inputs1 Hp1 Hne).
  rewrite (main_outcome_inputs fs argv2 t2 inputs2 Hp2 Hne2).
  pose proof (concat_map_Permutation (found_in fs) _ _ Hperm) as Hfiles.
  pose proof (concat_map_Permutation (warnings_of fs) _ _ Hperm) as Hwarn.
  rewrite <- !discovered_concat in Hfiles.
  destruct (discovered fs inputs1) as [|f1 l1] eqn:H1.
  - apply Permutation_nil_l in Hfiles. rewrite <- Hfiles. cbn [exit_code stdout stderr].
    split; [done |]. split; [done |]. by rewrite Hwarn.
  - destruct (discovered fs inputs2) as [|f2 l2] eqn:H2.
    { by apply Permutation_nil_r in Hfiles. }
    cbn [exit_code stdout stderr]. split; [done |]. split; [| done].
    by rewrite (sort_files_Permutation_eq _ _ Hfiles).
Qed.

Lemma order_of_inputs_is_irrelevant_witness :
  stdout (main_outcome demo_fs ["md5hash"; "notes.txt"; "data"])
  = stdout (main_outcome demo_fs ["md5hash"; "data"; "--threads"; "9"; "notes.txt"]).
Proof.
  refine (proj1 (proj2 (order_of_inputs_is_irrelevant demo_fs
            ["md5hash"; "notes.txt"; "data"]
            ["md5hash"; "data"; "--threads"; "9"; "notes.txt"]
            8%N 9%N ["notes.txt"; "data"] ["data"; "notes.txt"] _ _ _ _ _ _ _ _))).
  - reflexivity.
  - reflexivity.
  - discriminate.
  - apply perm_swap.
  - by apply main_returns_run.
  - by apply main_returns_run.
Defined.

(** X6.  Inputs add up: the lines written for the inputs [A] followed by
    the inputs [B] are the lines written for [A] together with the lines
    written for [B], up to their order.  Nothing is removed: a path that
    is given twice, or that is reached through two inputs, has its line
    twice. *)
Theorem lines_of_inputs_add_up `{MD5_API}
    fs argvA argvB argvAB tA tB tAB A B oA oB oAB :
  parse_args (tail argvA) = Parsed tA A ->
  parse_args (tail argvB) = Parsed tB B ->
  parse_args (tail argvAB) = Parsed tAB (A ++ B) ->
  A <> [] -> B <> [] ->
  main_run fs argvA oA -> main_run fs argvB oB -> main_run fs argvAB oAB ->
  stdout oAB ≡ₚ stdout oA ++ stdout oB /\
  length (stdout oAB) = length (discovered fs A) + length (discovered fs B).
Proof.
  intros HpA HpB HpAB HA HB ->%main_run_outcome ->%main_run_outcome ->%main_run_outcome.
  assert (HAB : A ++ B <> []) by (by destruct A).
  assert (Hd : discovered fs (A ++ B) = discovered fs A ++ discovered fs B).
  { by rewrite !discovered_concat, map_app, concat_app. }
  assert (Hout : forall argv t inputs,
            parse_args (tail argv) = Parsed t inputs -> inputs <> [] ->
            stdout (main_outcome fs argv) ≡ₚ expected_output fs (discovered fs inputs)).
  { intros argv t inputs Hp Hne. rewrite (main_outcome_inputs fs argv t inputs Hp Hne).
    destruct (discovered fs inputs); [done |]. cbn [stdout]. unfold expected_output.
    by rewrite sort_files_perm. }
  rewrite (Hout _ _ _ HpA HA), (Hout _ _ _ HpB HB), (Hout _ _ _ HpAB HAB), Hd.
  unfold expected_output. split; [by rewrite map_app |].
  by rewrite length_map, length_app.
Qed.

Lemma lines_of_inputs_add_up_witness :
  length (stdout (main_outcome demo_fs ["md5hash"; "notes.txt"; "notes.txt"; "data"]))
  = 1 + 4.
Proof.
  refine (proj2 (lines_of_inputs_add_up demo_fs
            ["md5hash"; "notes.txt"] ["md5hash"; "notes.txt"; "data"]
            ["md5hash"; "notes.txt"; "notes.txt"; "data"]
            8%N 8%N 8%N ["notes.txt"] ["notes.txt"; "data"] _ _ _ _ _ _ _ _ _ _ _)).
  - reflexivity.
  - reflexivity.
  - reflexivity.
  - discriminate.
  - discriminate.
  - by apply main_returns_run.
  - by apply main_returns_run.
  - by apply main_returns_run.
Defined.

Lemma warnings_of_unusable fs arg :
  warnings_of fs arg = if unusable fs arg then [warning_for fs arg] else [].
Proof.
  unfold warnings_of, collect_files_from_arg, unusable, warning_for,
    exists_, is_regular_file, is_directory.
  by destruct (status fs arg).
Qed.

Lemma warnings_concat fs inputs :
  concat (map (warnings_of fs) inputs)
  = map (warning_for fs) (filter (fun arg => unusable fs arg = true) inputs).
Proof.
  induction inputs as [|arg inputs IH]; [done |].
  cbn [map concat]. rewrite IH, warnings_of_unusable, filter_cons.
  destruct (unusable fs arg) eqn:Hu.
  - by rewrite decide_True.
  - by rewrite decide_False.
Qed.

(** X7.  The error stream names every input that is neither a regular
    file nor a directory, once and in the order of the command line,
    saying whether it was not found or is of another kind; regular files
    and directories are never mentioned.  The message that no files were
    found follows when the inputs yielded none. *)
Theorem warnings_name_the_unusable_inputs `{MD5_API} fs argv threads inputs o :
  parse_args (tail argv) = Parsed threads inputs ->
  inputs <> [] ->
  main_run fs argv o ->
  stderr o =
  map (warning_for fs) (filter (fun arg => unusable fs arg = true) inputs)
  ++ match discovered fs inputs with
     | [] => ["No files found." +:+ NL]
     | _ => []
     end.
Proof.
  intros Hp Hne ->%main_run_outcome.
  rewrite (main_outcome_inputs fs argv threads inputs Hp Hne), <- warnings_concat.
  destruct (discovered fs inputs); [done |]. by rewrite app_nil_r.
Qed.

Lemma warnings_name_the_unusable_inputs_witness :
  stderr (main_outcome demo_fs ["md5hash"; "/dev/null"; "data"; "gone"; "empty"])
  = ["Warning: skipping non-regular path: /dev/null" +:+ NL;
     "Warning: path not found: gone" +:+ NL].
Proof.
  refine (warnings_name_the_unusable_inputs demo_fs
            ["md5hash"; "/dev/null"; "data"; "gone"; "empty"] 8%N
            ["/dev/null"; "data"; "gone"; "empty"] _ _ _ _).
  - reflexivity.
  - discriminate.
  - by apply main_returns_run.
Defined.

(** ** The digest wrapper *)

Section Streaming.
Context `{MD5_API}.
Hypothesis streaming :
  forall ctx a b, MD5_Update (MD5_Update ctx a) b = MD5_Update ctx (a ++ b).

Lemma hashed_bytes_chunk p f :
  N.to_nat BUF_SZ <= length p ->
  hashed_bytes {| delivered := p; io_error := f |}
  = take (N.to_nat BUF_SZ) p
    ++ hashed_bytes {| delivered := drop (N.to_nat BUF_SZ) p; io_error := f |}.
Proof.
  pose proof BUF_SZ_pos as Hpos. intros Hle. unfold hashed_bytes.
  cbn [delivered io_error]. destruct f; [| by rewrite take_drop].
  rewrite take_take_drop, length_drop. f_equal.
  replace (length p) with ((length p - N.to_nat BUF_SZ) + 1 * N.to_nat BUF_SZ)
    at 1 by lia.
  rewrite Nat.div_add by lia. lia.
Qed.

Lemma hashed_bytes_short p f :
  length p < N.to_nat BUF_SZ ->
  hashed_bytes {| delivered := p; io_error := f |} = if f then [] else p.
Proof.
  intros Hlt. unfold hashed_bytes. cbn [delivered io_error].
  destruct f; [| done]. by rewrite Nat.div_small, Nat.mul_0_r by lia.
Qed.

(** The context the loop ends with: the bytes that reach MD5, fed at once. *)
Lemma read_loop_streaming fuel s ctx :
  good s = true -> length (pending s) < fuel ->
  snd (read_loop fuel s ctx)
  = match hashed_bytes {| delivered := pending s; io_error := faulty s |} with
    | [] => ctx
    | bs => MD5_Update ctx bs
    end.
Proof.
  pose proof BUF_SZ_pos as Hpos. revert s ctx.
  induction fuel as [|fuel IH]; intros [g p f] ctx; cbn [good pending faulty];
    intros -> Hlen; [lia |].
  cbn [read_loop good]. unfold read. cbn [pending faulty].
  destruct (N.leb_spec BUF_SZ (N.of_nat (length p))) as [Hfull | Hshort].
  - assert (HBp : N.to_nat BUF_SZ <= length p) by lia.
    rewrite length_take.
    destruct (N.ltb_spec 0 (N.of_nat (N.to_nat BUF_SZ `min` length p)))
      as [_ | ?]; [| lia].
    rewrite IH; cbn [good pending faulty]; [| done | rewrite length_drop; lia].
    rewrite (hashed_bytes_chunk p f HBp).
    assert (Htake : take (N.to_nat BUF_SZ) p <> []).
    { intros Ht%(f_equal length). rewrite length_take in Ht. cbn [length] in Ht. lia. }
    destruct (hashed_bytes _) as [|x rest].
    + rewrite app_nil_r. by destruct (take (N.to_nat BUF_SZ) p).
    + rewrite streaming. by destruct (take (N.to_nat BUF_SZ) p).
  - rewrite hashed_bytes_short by lia. destruct f.
    + by rewrite (read_loop_not_good fuel
                    {| good := false; pending := []; faulty := true |} _ eq_refl).
    + rewrite (read_loop_not_good fuel
                 {| good := false; pending := []; faulty := false |} _ eq_refl).
      cbn [snd]. by destruct p.
Qed.

Lemma md5_stream_streaming v :
  md5_stream v = render_hex (digest_of (hashed_bytes v)).
Proof.
  unfold md5_stream, digest_of.
  assert (Hfuel : length (pending (ifstream_open v)) < S (length (delivered v)))
    by (simpl; lia).
  pose proof (read_loop_streaming (S (length (delivered v))) (ifstream_open v)
                MD5_Init eq_refl Hfuel) as Hloop.
  destruct (read_loop _ _ _) as [s ctx]. cbn [snd pending faulty ifstream_open] in Hloop.
  rewrite Hloop. destruct v as [d e]. cbn [delivered io_error].
  destruct (hashed_bytes _); reflexivity.
Qed.

(** X8.  For a file that is read to its end, [md5_file_hex] returns the
    rendering of the digest of the whole content: no byte is lost or fed
    twice and the division into chunks of [BUF_SZ] bytes does not show,
    given that feeding [a] and then [b] to MD5 is feeding [a ++ b].  For an
    empty file [MD5_Update] is not called. *)
Theorem digest_is_of_the_whole_file fs p v :
  open_file fs p = Some v ->
  io_error v = false ->
  md5_file_hex fs p = returns (render_hex (digest_of (delivered v))).
Proof.
  intros Ho He. unfold md5_file_hex. rewrite Ho, md5_stream_streaming.
  unfold hashed_bytes. by rewrite He.
Qed.

(** X9.  A failure of the device while the file is read is not
    reported: the call returns as it does at the end of a file, with the
    digest of the chunks of [BUF_SZ] bytes that were read completely before
    the failure (of no byte at all when the failure is in the first chunk),
    and the worker stores it as a success. *)
Theorem read_failure_is_not_reported fs t v :
  open_file fs (path t) = Some v ->
  io_error v = true ->
  hash_task fs t =
  {| ok := true;
     md5hex := render_hex (digest_of
                 (take (N.to_nat BUF_SZ * (length (delivered v) / N.to_nat BUF_SZ))
                       (delivered v)));
     err := "" |} /\
  ((N.of_nat (length (delivered v)) < BUF_SZ)%N ->
   md5hex (hash_task fs t) = render_hex (MD5_Final MD5_Init)).
Proof.
  intros Ho He. unfold hash_task, md5_file_hex. rewrite Ho, md5_stream_streaming.
  unfold hashed_bytes. rewrite He. cbn [md5hex]. split; [done |].
  intros Hshort. rewrite Nat.div_small by lia.
  by rewrite Nat.mul_0_r, take_0.
Qed.

End Streaming.

Lemma digest_is_of_the_whole_file_witness :
  md5_file_hex demo_fs "notes.txt"
  = returns (render_hex (digest_of (delivered
               {| delivered := bytes "abc"; io_error := false |}))).
Proof.
  apply (digest_is_of_the_whole_file (H := rfc1321)).
  - intros ctx a b. symmetry. apply app_assoc.
  - reflexivity.
  - reflexivity.
Defined.

Lemma read_failure_is_not_reported_witness :
  md5hex (hash_task demo_fs {| index := 0; path := "disk.img" |})
  = render_hex (MD5_Final MD5_Init).
Proof.
  refine (proj2 (read_failure_is_not_reported (H := rfc1321) _ demo_fs
            {| index := 0; path := "disk.img" |}
            {| delivered := bytes "hello"; io_error := true |} _ _) _).
  - intros ctx a b. symmetry. apply app_assoc.
  - reflexivity.
  - reflexivity.
  - reflexivity.
Defined.

(** ** Hex rendering can be read back *)

Lemma unhex_two_digits (b : byte) :
  parse_hex (two_digits b) = Some [b].
Proof. destruct b; reflexivity. Qed.

Lemma parse_hex_two_digits_app (b : byte) (s : string) :
  parse_hex (two_digits b +:+ s)
  = match parse_hex s with Some bs => Some (b :: bs) | None => None end.
Proof.
  destruct b;
    (change (parse_hex (two_digits ?x +:+ s))
       with (match parse_hex s with
             | Some bs => Some (x :: bs)
             | None => None
             end) || idtac);
    cbn [two_digits String.append]; cbn; by destruct (parse_hex s).
Qed.

Lemma parse_hex_concat (bs : list byte) :
  parse_hex (String.concat EmptyString (map two_digits bs)) = Some bs.
Proof.
  induction bs as [|b [|b' bs] IH]; [done | apply unhex_two_digits |].
  cbn [map] in *. by rewrite concat_cons2, parse_hex_two_digits_app, IH.
Qed.

Lemma nth_seq_all {A} (l : list A) (d : A) :
  map (fun i => nth i l d) (seq 0 (length l)) = l.
Proof.
  apply list_eq. intros i. rewrite list_lookup_fmap.
  destruct (decide (i < length l)) as [Hi | Hi].
  - rewrite lookup_seq_lt by done. simpl.
    destruct (lookup_lt_is_Some_2 l i Hi) as [x Hx]. rewrite Hx. f_equal.
    by apply nth_lookup_Some.
  - rewrite lookup_seq_ge by lia. by rewrite lookup_ge_None_2 by lia.
Qed.

(** X10.  The rendering loses nothing: the 32 characters written for a
    digest of 16 bytes read back, two hexadecimal digits per byte, as
    these 16 bytes, so that two different digests are never written as the
    same text. *)
Theorem rendering_reads_back (digest : list byte) :
  length digest = MD5_DIGEST_LENGTH ->
  parse_hex (render_hex digest) = Some digest /\
  forall digest', length digest' = MD5_DIGEST_LENGTH ->
    render_hex digest' = render_hex digest -> digest' = digest.
Proof.
  assert (Hback : forall d, length d = MD5_DIGEST_LENGTH ->
                    parse_hex (render_hex d) = Some d).
  { intros d Hd. rewrite render_hex_bytes, parse_hex_concat, <- Hd.
    by rewrite nth_seq_all. }
  intros Hlen. split; [by apply Hback |].
  intros digest' Hlen' Heq. apply Hback in Hlen, Hlen'.
  rewrite Heq in Hlen'. congruence.
Qed.

Lemma rendering_reads_back_witness :
  parse_hex (render_hex (RFC1321.md5 [])) = Some (RFC1321.md5 []).
Proof.
  apply (rendering_reads_back (RFC1321.md5 [])). vm_compute. reflexivity.
Defined.

(** ** The name shown in a line *)

Lemma no_slash_cons c s :
  no_slash (String c s) = negb (Ascii.eqb c "/") && no_slash s.
Proof. reflexivity. Qed.

Lemma filename_from_no_slash s cand :
  no_slash s = true -> filename_from s cand = cand.
Proof.
  revert cand. induction s as [|c s IH]; intros cand; [done |].
  rewrite no_slash_cons. intros [Hc Hs]%andb_true_iff. simpl.
  destruct (Ascii.eqb c "/"); [done |]. by apply IH.
Qed.

(** Once a separator has been met the candidate no longer matters. *)
Lemma filename_from_candidate s cand cand' :
  no_slash s = false -> filename_from s cand = filename_from s cand'.
Proof.
  induction s as [|c s IH]; [done |]. rewrite no_slash_cons. simpl.
  destruct (Ascii.eqb c "/"); [done |]. simpl. apply IH.
Qed.

Lemma filename_from_has_no_slash s :
  (forall cand, no_slash cand = true -> no_slash (filename_from s cand) = true) /\
  no_slash (filename_from s s) = true.
Proof.
  induction s as [|c s [IH1 IH2]]; [done |]. simpl.
  destruct (Ascii.eqb c "/") eqn:Hc; [done |]. split; [done |].
  destruct (no_slash s) eqn:Hs.
  - rewrite filename_from_no_slash by done. by rewrite no_slash_cons, Hc, Hs.
  - by rewrite (filename_from_candidate s _ s).
Qed.

Lemma filename_after_slash dir name :
  no_slash name = true -> filename (dir +:+ "/" +:+ name) = name.
Proof.
  intros Hname. unfold filename.
  generalize (dir +:+ "/" +:+ name) at 2 as cand.
  induction dir as [|c dir IH]; intros cand.
  - simpl. by apply filename_from_no_slash.
  - simpl. destruct (Ascii.eqb c "/"); apply IH.
Qed.

(** X11.  The name shown in a line is the last component of the path: it
    never holds a directory separator, a path without one is shown as it
    is, and of [dir/name] only [name] is shown, so that files of the same
    name and content in different directories are written as equal
    lines. *)
Theorem lines_show_the_last_component `{MD5_API} fs dir dir' name :
  no_slash name = true ->
  open_file fs (dir +:+ "/" +:+ name) = open_file fs (dir' +:+ "/" +:+ name) ->
  filename (dir +:+ "/" +:+ name) = name /\
  filename name = name /\
  (forall p, no_slash (filename p) = true) /\
  output_line (dir +:+ "/" +:+ name) (hash_path fs (dir +:+ "/" +:+ name))
  = output_line (dir' +:+ "/" +:+ name) (hash_path fs (dir' +:+ "/" +:+ name)).
Proof.
  intros Hname Hopen.
  split; [by apply filename_after_slash |].
  split; [by apply filename_from_no_slash |].
  split; [intros p; apply filename_from_has_no_slash |].
  unfold output_line, hash_path, hash_task, md5_file_hex. cbn [path].
  rewrite !filename_after_slash by done. by rewrite Hopen.
Qed.

Lemma lines_show_the_last_component_witness :
  filename ("data" +:+ "/" +:+ "a.txt") = "a.txt".
Proof.
  refine (proj1 (lines_show_the_last_component demo_fs "data" "data" "a.txt" _ _)).
  - reflexivity.
  - reflexivity.
Defined.

(** ** The lines of the output *)

(** X12.  Every line of a run that reached the pool is of one of two
    forms, for a regular file [p] of the file list: the name of [p], a
    tab, 32 upper-case hexadecimal digits and a newline when [p] could be
    opened; the name of [p], a tab, [ERROR: cannot open file] and a newline
    when it could not.  No other error is ever written in a line. *)
Theorem lines_are_digest_or_open_error `{MD5_API} fs argv o line :
  main_run fs argv o ->
  exit_code o = 0%N ->
  line ∈ stdout o ->
  exists p,
    status fs p = ft_regular /\
    ((exists v, open_file fs p = Some v /\
        line = filename p +:+ TAB +:+ md5_stream v +:+ NL /\
        String.length (md5_stream v) = 32 /\
        forallb is_upper_hex (list_ascii_of_string (md5_stream v)) = true) \/
     (open_file fs p = None /\
        line = filename p +:+ TAB +:+ "ERROR: cannot open file" +:+ NL)).
Proof.
  intros ->%main_run_outcome. unfold main_outcome.
  destruct (start fs argv) as [o | threads files cerr] eqn:Hs.
  { intros Hcode. apply start_exit_code in Hs. congruence. }
  cbn [exit_code stdout]. intros _ Hline.
  unfold expected_output in Hline.
  apply list_elem_of_fmap in Hline as (p & -> & Hp). exists p. split.
  - by apply (start_files_regular _ _ _ _ _ Hs).
  - unfold output_line, hash_path, hash_task, md5_file_hex. cbn [path].
    destruct (open_file fs p) as [v|]; cbn [ok md5hex err]; [left | by right].
    exists v. split; [done |]. split; [done |]. unfold md5_stream.
    destruct (read_loop _ _ _) as [s ctx].
    split; [apply render_hex_length | apply render_hex_upper].
Qed.

Lemma lines_are_digest_or_open_error_witness :
  exists p,
    status demo_fs p = ft_regular /\
    ((exists v, open_file demo_fs p = Some v /\
        "c.bin" +:+ TAB +:+ "ERROR: cannot open file" +:+ NL
        = filename p +:+ TAB +:+ md5_stream v +:+ NL /\
        String.length (md5_stream v) = 32 /\
        forallb is_upper_hex (list_ascii_of_string (md5_stream v)) = true) \/
     (open_file demo_fs p = None /\
        "c.bin" +:+ TAB +:+ "ERROR: cannot open file" +:+ NL
        = filename p +:+ TAB +:+ "ERROR: cannot open file" +:+ NL)).
Proof.
  apply (lines_are_digest_or_open_error demo_fs ["md5hash"; "data"]
           (main_outcome demo_fs ["md5hash"; "data"])).
  - by apply main_returns_run.
  - vm_compute. reflexivity.
  - apply list_elem_of_In. vm_compute. auto.
Defined.

(** ** The pool and the collector *)

Lemma step_measure_exact `{MD5_API} fs files s e s' :
  step fs files s e s' -> measure files s = S (measure files s').
Proof.
  unfold measure.
  destruct 1 as [s w t q' Hw Hq | s w Hw Hd Hq | s w t Hw | s w t r Hw
                 | s p res Hpc Hp Hr | s Hpc Hn | s k Hpc Hk | s k Hpc Hk];
    simpl; rewrite ?length_insert, ?Hpc; simpl.
  - pose proof (weight_insert _ _ _ (Hashing t) Hw). rewrite Hq. simpl in *. lia.
  - pose proof (weight_insert _ _ _ Exited Hw). simpl in *. lia.
  - pose proof (weight_insert _ _ _ (Publishing t (hash_task fs t)) Hw).
    simpl in *. lia.
  - pose proof (weight_insert _ _ _ Waiting Hw). simpl in *. lia.
  - apply lookup_lt_Some in Hp. lia.
  - lia.
  - apply lookup_lt_Some in Hk. lia.
  - lia.
Qed.

Lemma execution_measure `{MD5_API} fs files s tr s' :
  execution fs files s tr s' -> length tr + measure files s' = measure files s.
Proof.
  induction 1 as [| tr s' e s'' _ IH Hstep]; [done |].
  apply step_measure_exact in Hstep. rewrite length_app. simpl. lia.
Qed.

Lemma measure_initial threads files :
  measure files (initial threads files) = 4 * length files + 2 * threads + 2.
Proof.
  unfold measure. simpl. rewrite enqueue_from_length, length_replicate.
  assert (Hsum : sum_list (map weight (replicate threads Waiting)) = threads).
  { induction threads; simpl; [done | by f_equal]. }
  rewrite Hsum. lia.
Qed.

Lemma sum_weight_exited threads :
  sum_list (map weight (replicate threads Exited)) = 0.
Proof. induction threads; simpl; done. Qed.

(** X13.  Every run is finite: for [n] files and [k] workers it has at
    most [4 n + 2 k + 2] steps, and a run in which [main] has returned has
    exactly this number of steps (for each file one dequeue, one hash, one
    publish and one emission; one exit and one join for each worker; the
    close and the return). *)
Theorem runs_have_bounded_length `{MD5_API} fs files threads tr s :
  execution fs files (initial threads files) tr s ->
  length tr <= 4 * length files + 2 * threads + 2 /\
  (pc s = Returned -> length tr = 4 * length files + 2 * threads + 2).
Proof.
  intros Hex. pose proof (execution_measure _ _ _ _ _ Hex) as Hm.
  rewrite measure_initial in Hm. split; [lia |]. intros Hret.
  assert (measure files s = 0); [| lia].
  unfold measure.
  rewrite (complete_queue_empty fs files threads tr s Hex Hret).
  rewrite (complete_workers_exited fs files threads tr s Hex Hret).
  rewrite (complete_next fs files threads tr s Hex Hret).
  rewrite sum_weight_exited, Hret. simpl. lia.
Qed.

Lemma runs_have_bounded_length_witness :
  length (fst (run_of full_schedule)) = 4 * 2 + 2 * 2 + 2.
Proof.
  refine (proj2 (runs_have_bounded_length demo_fs demo_files 2
                   (fst (run_of full_schedule)) (snd (run_of full_schedule)) _) _).
  - apply run_of_execution. vm_compute. eauto.
  - vm_compute. reflexivity.
Defined.

(** X14.  With at least one worker the program cannot deadlock: in every
    state a run can reach some thread can take a step, unless [main] has
    returned, and then no thread can. *)
Theorem no_deadlock `{MD5_API} fs files threads tr s :
  1 <= threads ->
  execution fs files (initial threads files) tr s ->
  (exists e s', step fs files s e s') <-> pc s <> Returned.
Proof.
  intros Hthreads Hex. split.
  - intros (e & s' & Hstep) Hret.
    pose proof (complete_workers_exited fs files threads tr s Hex Hret) as Hpool.
    assert (Hw : forall w c, pool s !! w = Some c -> c = Exited).
    { intros w c. rewrite Hpool. by intros [-> _]%lookup_replicate. }
    inversion Hstep; subst;
      try match goal with Hl : pool _ !! _ = Some _ |- _ =>
            by apply Hw in Hl end; congruence.
  - apply (progress fs files threads Hthreads tr).
    by apply Inv_execution.
Qed.

Lemma no_deadlock_witness :
  exists e s', step demo_fs demo_files (snd (run_of demo_schedule)) e s'.
Proof.
  refine (proj2 (no_deadlock demo_fs demo_files 2 (fst (run_of demo_schedule))
                   (snd (run_of demo_schedule)) _ _) _).
  - lia.
  - apply run_of_execution. vm_compute. eauto.
  - vm_compute. discriminate.
Defined.

(** X15.  The queue is served first in, first out: at every moment the
    tasks dequeued so far, in the order in which they were dequeued, are
    the tasks of the first files of the sorted list, with the indices
    0, 1, 2, ..., and the queue holds the tasks of the other files. *)
Theorem tasks_are_dequeued_in_index_order `{MD5_API} fs files threads tr s :
  execution fs files (initial threads files) tr s ->
  map index (dequeued tr) = seq 0 (length (dequeued tr)) /\
  map path (dequeued tr) = take (length (dequeued tr)) files /\
  map path (q s) = drop (length (dequeued tr)) files.
Proof.
  intros Hex. pose proof (inv_queue _ _ _ _ _ (Inv_execution _ _ _ _ _ Hex)) as Hq.
  pose proof (f_equal (map index) Hq) as Hi.
  pose proof (f_equal (map path) Hq) as Hp.
  rewrite enqueue_from_index, map_app in Hi.
  rewrite enqueue_from_path, map_app in Hp.
  assert (Hlen : length files = length (dequeued tr) + length (q s)).
  { by rewrite <- (enqueue_from_length 0), Hq, length_app. }
  split; [| split].
  - rewrite Hlen, seq_app in Hi. apply app_inj_1 in Hi as [? _]; [done |].
    by rewrite length_map, length_seq.
  - rewrite Hp, take_app_length'; [done | by rewrite length_map].
  - rewrite Hp, drop_app_length'; [done | by rewrite length_map].
Qed.

Lemma tasks_are_dequeued_in_index_order_witness :
  map index (dequeued (fst (run_of demo_schedule))) = [0; 1].
Proof.
  refine (proj1 (tasks_are_dequeued_in_index_order demo_fs demo_files 2
                   (fst (run_of demo_schedule)) (snd (run_of demo_schedule)) _)).
  apply run_of_execution. vm_compute. eauto.
Defined.

Lemma Inv_extend `{MD5_API} fs files threads tr s tr' s' :
  Inv fs files threads tr s -> execution fs files s tr' s' ->
  Inv fs files threads (tr ++ tr') s'.
Proof.
  intros Hinv. induction 1 as [| tr' s' e s'' _ IH Hstep].
  - by rewrite app_nil_r.
  - rewrite app_assoc. by eapply Inv_step.
Qed.

Lemma step_keeps_slot `{MD5_API} fs files threads tr s e s' i r :
  Inv fs files threads tr s -> step fs files s e s' ->
  results s !! i = Some (Some r) -> results s' !! i = Some (Some r).
Proof.
  intros Hinv Hstep Hr. destruct Hstep; simpl; try done.
  rewrite list_lookup_insert_ne; [done |]. intros <-.
  destruct (inv_held _ _ _ _ _ Hinv w _ t H0 eq_refl) as [_ Hnone]. congruence.
Qed.

(** X16.  A slot of the result table that holds a value holds the result
    of hashing the file of its own index, and keeps this value for the
    rest of the run: a result is never stored in the slot of another file,
    overwritten or removed. *)
Theorem filled_slots_are_right_and_stable `{MD5_API}
    fs files threads tr s i r :
  execution fs files (initial threads files) tr s ->
  results s !! i = Some (Some r) ->
  (exists p, files !! i = Some p /\ r = hash_path fs p) /\
  forall tr' s', execution fs files s tr' s' -> results s' !! i = Some (Some r).
Proof.
  intros Hex Hr. pose proof (Inv_execution _ _ _ _ _ Hex) as Hinv.
  split; [by apply (inv_result_value _ _ _ _ _ Hinv) |].
  intros tr' s' Hex'. induction Hex' as [| tr' s' e s'' Hex' IH Hstep]; [done |].
  eapply step_keeps_slot; [| done | done].
  by apply (Inv_extend fs files threads tr s tr' s').
Qed.

Lemma filled_slots_are_right_and_stable_witness :
  results (snd (run_of full_schedule)) !! 0
  = Some (Some {| ok := true; md5hex := "5D41402ABC4B2A76B9719D911017C592";
                  err := "" |}).
Proof.
  refine (proj2 (filled_slots_are_right_and_stable demo_fs demo_files 2
                   (fst (run_of demo_schedule)) (snd (run_of demo_schedule)) 0 _ _ _)
            (skipn 4 (fst (run_of full_schedule))) _ _).
  - apply run_of_execution. vm_compute. eauto.
  - vm_compute. reflexivity.
  - apply (run_schedule_sound demo_fs demo_files (skipn 4 full_schedule)).
    vm_compute. reflexivity.
Defined.

Lemma step_next `{MD5_API} fs files s e s' :
  step fs files s e s' -> next s <= next s'.
Proof. destruct 1; simpl; lia. Qed.

Lemma execution_next `{MD5_API} fs files s tr s' :
  execution fs files s tr s' -> next s <= next s'.
Proof.
  induction 1 as [| tr s' e s'' _ IH Hstep]; [done |].
  apply step_next in Hstep. lia.
Qed.

(** X17.  What has been written to the output stream is at every moment
    the first [next] lines of the text the complete run writes, and the
    output only grows: a line, once written, is never changed or followed
    by a line of a smaller index. *)
Theorem output_is_a_growing_prefix `{MD5_API} fs files threads tr s :
  execution fs files (initial threads files) tr s ->
  cout s = take (next s) (expected_output fs files) /\
  length (cout s) = next s /\
  forall tr' s', execution fs files s tr' s' -> cout s `prefix_of` cout s'.
Proof.
  intros Hex.
  assert (Hcout : forall tr0 s0,
            execution fs files (initial threads files) tr0 s0 ->
            cout s0 = take (next s0) (expected_output fs files)).
  { intros tr0 s0 Hex0. pose proof (Inv_execution _ _ _ _ _ Hex0) as Hinv.
    rewrite (inv_cout _ _ _ _ _ Hinv). unfold expected_output.
    symmetry. apply firstn_map. }
  pose proof (Inv_execution _ _ _ _ _ Hex) as Hinv.
  split; [by apply (Hcout tr) |]. split.
  - rewrite (Hcout tr s Hex), length_take.
    unfold expected_output. rewrite length_map.
    pose proof (inv_next _ _ _ _ _ Hinv). lia.
  - intros tr' s' Hex'. pose proof (execution_next _ _ _ _ _ Hex') as Hle.
    rewrite (Hcout tr s Hex), (Hcout (tr ++ tr') s' (execution_app _ _ _ _ _ _ _ Hex Hex')).
    exists (take (next s' - next s) (drop (next s) (expected_output fs files))).
    rewrite take_take_drop. f_equal. lia.
Qed.

Lemma output_is_a_growing_prefix_witness :
  cout (snd (run_of full_schedule))
  = take 2 (expected_output demo_fs demo_files).
Proof.
  refine (proj1 (output_is_a_growing_prefix demo_fs demo_files 2
                   (fst (run_of full_schedule)) (snd (run_of full_schedule)) _)).
  apply run_of_execution. vm_compute. eauto.
Defined.

Lemma shutdown_in_trace `{MD5_API} fs files threads tr s :
  execution fs files (initial threads files) tr s ->
  (pc s <> Collecting -> ev_close ∈ tr) /\
  (forall w, pool s !! w = Some Exited -> ev_exit w ∈ tr).
Proof.
  induction 1 as [| tr s' e s'' _ [IHc IHe] Hstep].
  - split; [done |]. simpl. by intros w [? _]%lookup_replicate.
  - split.
    + intros Hpc. apply elem_of_app.
      destruct Hstep; simpl in *;
        try (left; apply IHc; congruence); try (right; left).
    + intros w Hw. apply elem_of_app.
      destruct Hstep; simpl in *;
        try (left; by apply IHe);
        apply list_lookup_insert_Some in Hw as [(<- & Heq & _) | (_ & Hw)];
        try done; try (left; by apply IHe).
      right. left.
Qed.

(** X18.  A worker leaves its loop only after the queue has been closed,
    and the queue is closed only after every line has been written: each
    exit of a worker comes after the close and after the emission of all
    indices.  When [main] returns, every worker has exited and the queue
    is empty. *)
Theorem workers_exit_after_the_last_line `{MD5_API} fs files threads tr s :
  execution fs files (initial threads files) tr s ->
  (forall tr1 w tr2, tr = tr1 ++ ev_exit w :: tr2 ->
     ev_close ∈ tr1 /\ emitted tr1 = seq 0 (length files)) /\
  (pc s = Returned ->
     pool s = replicate threads Exited /\ q s = [] /\
     forall w, w < threads -> ev_exit w ∈ tr).
Proof.
  intros Hex. split.
  - intros tr1 w tr2 ->.
    apply execution_prefix in Hex as (s1 & Hex1 & Hex2).
    apply execution_first in Hex2 as (s2 & Hstep).
    pose proof (Inv_execution _ _ _ _ _ Hex1) as Hinv.
    assert (Hdone : done s1 = true) by (by inversion Hstep).
    assert (Hpc : pc s1 <> Collecting).
    { intros Hc. apply (inv_collecting _ _ _ _ _ Hinv) in Hc. congruence. }
    split; [by apply (shutdown_in_trace fs files threads tr1 s1) |].
    destruct (inv_closed _ _ _ _ _ Hinv Hpc) as [_ Hn].
    by rewrite (inv_emitted _ _ _ _ _ Hinv), Hn.
  - intros Hret.
    pose proof (complete_workers_exited fs files threads tr s Hex Hret) as Hpool.
    split; [done |].
    split; [by apply (complete_queue_empty fs files threads tr s) |].
    intros w Hw. apply (shutdown_in_trace fs files threads tr s Hex).
    rewrite Hpool. by apply lookup_replicate.
Qed.

Lemma workers_exit_after_the_last_line_witness :
  pool (snd (run_of full_schedule)) = [Exited; Exited].
Proof.
  refine (proj1 (proj2 (workers_exit_after_the_last_line demo_fs demo_files 2
            (fst (run_of full_schedule)) (snd (run_of full_schedule)) _) _)).
  - apply run_of_execution. vm_compute. eauto.
  - vm_compute. reflexivity.
Defined.

(** ** collatz *)

Example collatz_6 :
  Collatz.main ["collatz"; "6"] Collatz.in_child 100
  = Collatz.Returns 0 ("Collatz sequence: 6, 3, 10, 5, 16, 8, 4, 2, 1" +:+ NL) "".
Proof. vm_compute. reflexivity. Qed.

Example collatz_text :
  Collatz.main ["collatz"; "six"] Collatz.in_child 100
  = Collatz.Returns 1 "" ("Error: Please enter a positive integer." +:+ NL).
Proof. vm_compute. reflexivity. Qed.

Example collatz_113383 :
  Collatz.main ["collatz"; "113383"] Collatz.in_child 400 = Collatz.Undefined.
Proof. vm_compute. reflexivity. Qed.

Lemma append_nil_r (s : string) : s +:+ "" = s.
Proof.
  induction s as [|c s IH]; [done |].
  change (String c (s +:+ "") = String c s). by rewrite IH.
Qed.

Lemma append_assoc (a b c : string) : (a +:+ b) +:+ c = a +:+ b +:+ c.
Proof.
  induction a as [|x a IH]; [done |].
  change (String x ((a +:+ b) +:+ c) = String x (a +:+ b +:+ c)). by rewrite IH.
Qed.

Lemma loop_power_of_two k fuel out :
  k < fuel ->
  Collatz.loop fuel (2 ^ Z.of_nat k) out = (Collatz.at_one, out +:+ Collatz.halvings k).
Proof.
  revert fuel out. induction k as [|k IH]; intros [|fuel] out Hk; try lia.
  - simpl. by rewrite append_nil_r.
  - cbn [Collatz.loop Collatz.halvings].
    assert (Hpow : (2 ^ Z.of_nat (S k) = 2 * 2 ^ Z.of_nat k)%Z).
    { rewrite Nat2Z.inj_succ, Z.pow_succ_r by lia. done. }
    assert (Hpos : (0 < 2 ^ Z.of_nat k)%Z) by (apply Z.pow_pos_nonneg; lia).
    destruct (Z.eqb_spec (2 ^ Z.of_nat (S k)) 1) as [? | _]; [lia |].
    assert (Hrem : Z.rem (2 ^ Z.of_nat (S k)) 2 = 0%Z).
    { rewrite Hpow, Z.mul_comm. apply Z.rem_mul. lia. }
    assert (Hquot : Z.quot (2 ^ Z.of_nat (S k)) 2 = (2 ^ Z.of_nat k)%Z).
    { rewrite Hpow, Z.mul_comm. apply Z.quot_mul. lia. }
    rewrite Hrem, Hquot. cbn [Z.eqb]. rewrite IH by lia.
    by rewrite !append_assoc.
Qed.

(** X19.  For a power of two the child prints the halvings down to 2 and
    then 1, in as many rounds of the loop as the exponent, and returns 0;
    the parent then reports the completion and returns 0. *)
Theorem powers_of_two_are_halved prog arg k fuel :
  Collatz.atoi arg = Some (2 ^ Z.of_nat k)%Z ->
  k < fuel ->
  Collatz.main [prog; arg] Collatz.in_child fuel
  = Collatz.Returns 0
      ("Collatz sequence: " +:+ Collatz.halvings k +:+ "1" +:+ NL) "" /\
  Collatz.main [prog; arg] Collatz.in_parent fuel
  = Collatz.Returns 0 ("Child process completed." +:+ NL) "".
Proof.
  intros Harg Hk. unfold Collatz.main. rewrite Harg.
  assert (Hpos : (0 < 2 ^ Z.of_nat k)%Z) by (apply Z.pow_pos_nonneg; lia).
  destruct (Z.leb_spec (2 ^ Z.of_nat k) 0) as [? | _]; [lia |].
  unfold Collatz.child. rewrite loop_power_of_two by done.
  by rewrite !append_assoc.
Qed.

Lemma powers_of_two_are_halved_witness :
  Collatz.main ["collatz"; "16"] Collatz.in_child 5
  = Collatz.Returns 0 ("Collatz sequence: 16, 8, 4, 2, 1" +:+ NL) "".
Proof.
  refine (proj1 (powers_of_two_are_halved "collatz" "16" 4 5 _ _)).
  - reflexivity.
  - lia.
Defined.

(** X20.  For an odd number above 715827882, a third of [INT_MAX], the
    first round of the loop of the child computes [3 * n + 1] beyond the
    range of [int]: the behaviour of the child is undefined, whatever
    number of rounds is looked at. *)
Theorem large_odd_numbers_overflow prog arg n fuel :
  Collatz.atoi arg = Some n ->
  Z.odd n = true ->
  (715827882 < n)%Z ->
  1 <= fuel ->
  Collatz.main [prog; arg] Collatz.in_child fuel = Collatz.Undefined.
Proof.
  intros Harg Hodd Hn Hfuel. unfold Collatz.main. rewrite Harg.
  destruct (Z.leb_spec n 0) as [? | _]; [lia |].
  destruct fuel as [|fuel]; [lia |]. unfold Collatz.child. cbn [Collatz.loop].
  destruct (Z.eqb_spec n 1) as [? | _]; [lia |].
  assert (Hrem : Z.rem n 2 = 1%Z).
  { rewrite Z.rem_mod_nonneg by lia. rewrite Zmod_odd, Hodd. done. }
  rewrite Hrem. cbn [Z.eqb].
  assert (Hover : Collatz.in_int (3 * n) = false).
  { unfold Collatz.in_int, Collatz.INT_MAX. apply andb_false_iff. right.
    apply Z.leb_gt. lia. }
  by rewrite Hover.
Qed.

Lemma large_odd_numbers_overflow_witness :
  Collatz.main ["collatz"; "715827883"] Collatz.in_child 1 = Collatz.Undefined.
Proof.
  refine (large_odd_numbers_overflow "collatz" "715827883" 715827883 1 _ _ _ _).
  - reflexivity.
  - reflexivity.
  - reflexivity.
  - lia.
Defined.

(** X21.  Nothing is forked for an unusable command line: with a number
    of arguments other than one the usage is written to the error stream,
    and an argument that does not begin with a number (it is read as 0),
    or whose number is 0 or negative, is rejected as not positive; in both
    cases [main] returns 1 and the output stream stays empty, whatever
    [fork] would have returned. *)
Theorem unusable_arguments_are_rejected prog args arg fk fuel :
  (length args <> 1 ->
   Collatz.main (prog :: args) fk fuel
   = Collatz.Returns 1 "" ("Usage: " +:+ prog +:+ " <positive integer>" +:+ NL)) /\
  (starts_with_digit (numeral_part arg) = false \/
   (exists n, Collatz.atoi arg = Some n /\ (n <= 0)%Z) ->
   Collatz.main [prog; arg] fk fuel
   = Collatz.Returns 1 "" ("Error: Please enter a positive integer." +:+ NL)).
Proof.
  split.
  - intros Hlen. by destruct args as [|a [|b args]].
  - intros Harg.
    assert (Hn : exists n, Collatz.atoi arg = Some n /\ (n <= 0)%Z).
    { destruct Harg as [Hnone | ?]; [| done]. exists 0%Z. split; [| lia].
      apply digits_none_iff in Hnone. unfold Collatz.atoi, numeral_part in *.
      destruct (Stoul.strip_sign (Stoul.skip_spaces arg)) as [neg s].
      simpl in Hnone. by rewrite Hnone. }
    destruct Hn as (n & Hatoi & Hle). unfold Collatz.main. rewrite Hatoi.
    by destruct (Z.leb_spec n 0) as [_ | ?]; [| lia].
Qed.

Lemma unusable_arguments_are_rejected_witness :
  Collatz.main ["collatz"] Collatz.in_child 10
  = Collatz.Returns 1 "" ("Usage: " +:+ "collatz" +:+ " <positive integer>" +:+ NL) /\
  Collatz.main ["collatz"; "-7"] Collatz.in_child 10
  = Collatz.Returns 1 "" ("Error: Please enter a positive integer." +:+ NL).
Proof.
  split.
  - refine (proj1 (unusable_arguments_are_rejected "collatz" [] "-7"
                     Collatz.in_child 10) _).
    simpl. lia.
  - refine (proj2 (unusable_arguments_are_rejected "collatz" [] "-7"
                     Collatz.in_child 10) _).
    right. exists (-7)%Z. split; [reflexivity | lia].
Defined.
